(** * EFL-POC: the batch-orchestration and merge pipeline of the server

    A shallow embedding of the Express server module of the repository
    (the file that defines [mergeExtractedData], [cleanupTempImages],
    [isPdfFile] and [extractDataWithOpenAI]): the JavaScript object
    store with references, so that aliasing between the inputs and the
    output of [mergeExtractedData] is visible; the JSON round trip used
    as a deep copy; the batching loop; the PDF test; the expansion of
    files into page images; the cleanup of temporary files; and the
    route POST /api/extract, which calls the pipeline.

    Conventions of the embedding.
    - JavaScript numbers are exact rationals ([Q]); the rounding of IEEE
      doubles is not represented.  Two rationals denote the same number
      when they are [Qeq].  Batch sizes and indices are integers ([Z]).
    - Objects and arrays live in a store ([list cell]); a reference is an
      index into it.  Allocation appends, so a reference is never reused.
    - The file system is the set of paths that exist ([gset fpath]).  The
      temp directory itself always exists.  What lies outside the
      program is a parameter ([env]): [path.extname], the bytes of a
      file, the rasterizer, the model, and which deletions fail.
    - [console.log] is left out.  The log of a state records the calls
      of the rasterizer and of the model, the entries of the cleanup,
      its [console.warn] and the [console.error] of the catch block.
    - A computation either returns, throws a JavaScript exception, or
      halts: [OutOfFuel] stands for a loop that is still running when the
      step budget ends, [OutsideModel] for a JavaScript behaviour the
      embedding does not represent (string coercion in arithmetic, named
      properties on arrays, a reference to no cell).  Halting is not an
      exception: [try/catch] does not see it, and no statement below
      concludes anything from [OutsideModel].

    The first part is the embedding, the second the notions the
    statements use, the third the properties, and the last one further
    properties of the same functions and of the route. *)

From Stdlib Require Import ZArith QArith Lia Ascii Sorted.
From stdpp Require Import base option list strings gmap.

#[local] Set Warnings "-clear-no-such-hyp".
Local Open Scope Z_scope.

(** ** JavaScript values and the object store *)

Inductive val :=
| VNull
| VBool (b : bool)
| VNum (q : Q)
| VStr (s : string)
| VRef (l : nat).

(** Property lists keep the enumeration order of the object: writing an
    existing key keeps its position, a new key goes last.  (JavaScript
    enumerates integer-like names first; no name in this program is
    one, and no statement depends on the order.) *)
Inductive cell :=
| CObj (props : list (string * val))
| CArr (elems : list val).

(** JSON text, as its syntax tree. *)
#[local] Set Warnings "-register-all".
Inductive json :=
| JNull
| JBool (b : bool)
| JNum (q : Q)
| JStr (s : string)
| JArr (items : list json)
| JObj (members : list (string * json)).

Section json_induction.
Variable P : json → Prop.
Hypothesis Hnull : P JNull.
Hypothesis Hbool : ∀ b, P (JBool b).
Hypothesis Hnum : ∀ q, P (JNum q).
Hypothesis Hstr : ∀ s, P (JStr s).
Hypothesis Harr : ∀ js, Forall P js → P (JArr js).
Hypothesis Hobj : ∀ kvs, Forall (λ kv, P kv.2) kvs → P (JObj kvs).

Fixpoint json_nested_ind (j : json) : P j :=
  match j with
  | JNull => Hnull
  | JBool b => Hbool b
  | JNum q => Hnum q
  | JStr s => Hstr s
  | JArr js =>
      Harr js ((fix go (l : list json) : Forall P l :=
                  match l with
                  | [] => @List.Forall_nil _ P
                  | x :: l' => @List.Forall_cons _ P x l' (json_nested_ind x) (go l')
                  end) js)
  | JObj kvs =>
      Hobj kvs ((fix go (l : list (string * json)) : Forall (λ kv, P kv.2) l :=
                   match l with
                   | [] => @List.Forall_nil _ (λ kv, P kv.2)
                   | x :: l' =>
                       @List.Forall_cons _ (λ kv, P kv.2) x l' (json_nested_ind x.2) (go l')
                   end) kvs)
  end.
End json_induction.

(** ** Files, events and the world *)

(** [InTemp f] is [path.join(tempDir, f)]; every other path is
    [Elsewhere]. *)
Inductive fpath :=
| InTemp (file : string)
| Elsewhere (p : string).

Global Instance fpath_eq_dec : EqDecision fpath.
Proof. solve_decision. Defined.

Global Instance fpath_countable : Countable fpath.
Proof.
  refine (inj_countable'
            (λ p, match p with InTemp f => inl f | Elsewhere q => inr q end)
            (λ s, match s with inl f => InTemp f | inr q => Elsewhere q end) _).
  by intros [].
Defined.

Inductive error :=
| ErrImageNotFound (p : fpath)        (* Error(`Image file not found: ...`) *)
| ErrConvertFailed (msg : string)     (* Error(`Failed to convert PDF to images: ...`) *)
| ErrNoImages                         (* Error('No images to process') *)
| ErrInvalidMime (m : string)         (* Error(`Invalid MIME type detected: ...`) *)
| ErrPoppler (msg : string)           (* the error pdf.convert reports *)
| ErrProvider (msg : string)          (* rejection of openai.chat.completions.create *)
| ErrSyntax                           (* SyntaxError of JSON.parse *)
| ErrType                             (* TypeError: property access on null, write on a primitive *)
| ErrCircular                         (* TypeError of JSON.stringify on a cyclic structure *)
| ErrRead (p : fpath)                 (* fs.readFileSync throws *)
| ErrUnlink (p : fpath).              (* fs.unlinkSync throws *)

Inductive halt := OutOfFuel | OutsideModel.

Inductive outcome (A : Type) :=
| Ret (a : A)
| Throw (e : error)
| Halt (r : halt).
Arguments Ret {A} a.
Arguments Throw {A} e.
Arguments Halt {A} r.

Inductive prompt := COMMERCIAL_INVOICE_PROMPT | HBLPROMPT | MBL_PROMPT.

Inductive event :=
| EvRasterize (pdf : fpath)                       (* pdf.convert(pdfPath, options) *)
| EvModelCall (p : prompt) (batch : list fpath)   (* openai.chat.completions.create *)
| EvCleanup (paths : list fpath)                  (* entry of cleanupTempImages *)
| EvWarn (e : error)                              (* console.warn in cleanupTempImages *)
| EvError (e : error).                            (* console.error in the catch block *)

(** The state a request runs in.  [allImagePaths] and
    [allTempImagePaths] are the two mutable locals of
    [extractDataWithOpenAI]; they are part of the state because the
    [catch] block reads [allTempImagePaths] as it is at the throw. *)
Record world := World {
  heap : list cell;
  disk : gset fpath;
  log : list event;
  allImagePaths : list fpath;
  allTempImagePaths : list fpath
}.

Definition set_heap (h : list cell) (w : world) : world :=
  World h (disk w) (log w) (allImagePaths w) (allTempImagePaths w).
Definition set_disk (d : gset fpath) (w : world) : world :=
  World (heap w) d (log w) (allImagePaths w) (allTempImagePaths w).
Definition add_log (e : event) (w : world) : world :=
  World (heap w) (disk w) (log w ++ [e]) (allImagePaths w) (allTempImagePaths w).
Definition set_allImagePaths (l : list fpath) (w : world) : world :=
  World (heap w) (disk w) (log w) l (allTempImagePaths w).
Definition set_allTempImagePaths (l : list fpath) (w : world) : world :=
  World (heap w) (disk w) (log w) (allImagePaths w) l.

(** ** The monad of requests *)

Definition M (A : Type) : Type := world → outcome A * world.

Definition ret {A} (a : A) : M A := λ w, (Ret a, w).
Definition throw {A} (e : error) : M A := λ w, (Throw e, w).
Definition stop {A} (r : halt) : M A := λ w, (Halt r, w).
Definition bind {A B} (c : M A) (k : A → M B) : M B :=
  λ w, match c w with
       | (Ret a, w') => k a w'
       | (Throw e, w') => (Throw e, w')
       | (Halt r, w') => (Halt r, w')
       end.
(** [try { c } catch (error) { handler error }] *)
Definition try_catch {A} (c : M A) (handler : error → M A) : M A :=
  λ w, match c w with
       | (Throw e, w') => handler e w'
       | r => r
       end.

Notation "x <- c ;; k" := (bind c (λ x, k))
  (at level 100, c at next level, right associativity).
Notation "c ;;; k" := (bind c (λ _, k))
  (at level 100, right associativity).

Definition get_world : M world := λ w, (Ret w, w).
Definition modify (f : world → world) : M unit := λ w, (Ret tt, f w).
Definition emit (e : event) : M unit := modify (add_log e).

(** [for (const x of l) body(x)] and [l.forEach(body)] *)
Fixpoint for_each {A} (body : A → M unit) (l : list A) : M unit :=
  match l with
  | [] => ret tt
  | x :: l' => body x ;;; for_each body l'
  end.

(** [l.map(f)] with a callback that may throw *)
Fixpoint map_m {A B} (f : A → M B) (l : list A) : M (list B) :=
  match l with
  | [] => ret []
  | x :: l' => y <- f x ;; ys <- map_m f l' ;; ret (y :: ys)
  end.

(** [l.reduce(f, init)] *)
Fixpoint reduce {A B} (f : B → A → M B) (init : B) (l : list A) : M B :=
  match l with
  | [] => ret init
  | x :: l' => acc <- f init x ;; reduce f acc l'
  end.

(** ** Store primitives *)

Fixpoint assoc (k : string) (ps : list (string * val)) : option val :=
  match ps with
  | [] => None
  | (k', v) :: ps' => if String.eqb k k' then Some v else assoc k ps'
  end.

Fixpoint assoc_set (k : string) (v : val) (ps : list (string * val))
  : list (string * val) :=
  match ps with
  | [] => [(k, v)]
  | (k', v') :: ps' =>
      if String.eqb k k' then (k', v) :: ps' else (k', v') :: assoc_set k v ps'
  end.

Definition alloc (c : cell) : M val :=
  λ w, (Ret (VRef (length (heap w))), set_heap (heap w ++ [c]) w).

(** [d.k] for a key [k] that is no built-in member: [None] is
    [undefined].  Reading a property of [null] throws. *)
Definition get_prop (d : val) (k : string) : M (option val) :=
  match d with
  | VNull => throw ErrType
  | VBool _ | VNum _ | VStr _ => ret None
  | VRef l =>
      w <- get_world ;;
      match heap w !! l with
      | Some (CObj ps) => ret (assoc k ps)
      | Some (CArr _) => ret None
      | None => stop OutsideModel
      end
  end.

(** [d?.k]: [undefined] when [d] is [undefined] or [null]. *)
Definition get_prop_opt (d : option val) (k : string) : M (option val) :=
  match d with
  | None | Some VNull => ret None
  | Some v => get_prop v k
  end.

(** [d.k = v] in strict mode (the file is an ES module). *)
Definition set_prop (d : val) (k : string) (v : val) : M unit :=
  match d with
  | VNull | VBool _ | VNum _ | VStr _ => throw ErrType
  | VRef l =>
      w <- get_world ;;
      match heap w !! l with
      | Some (CObj ps) => modify (set_heap (<[l := CObj (assoc_set k v ps)]> (heap w)))
      | Some (CArr _) => stop OutsideModel
      | None => stop OutsideModel
      end
  end.

(** [a.length] where [a] is expected to be an array. *)
Definition array_length (a : option val) : M Z :=
  match a with
  | Some (VRef l) =>
      w <- get_world ;;
      match heap w !! l with
      | Some (CArr es) => ret (Z.of_nat (length es))
      | _ => stop OutsideModel
      end
  | Some VNull | None => throw ErrType
  | Some _ => stop OutsideModel
  end.

Definition truthy (v : val) : bool :=
  match v with
  | VNull => false
  | VBool b => b
  | VNum q => negb (Qeq_bool q 0)
  | VStr s => negb (String.eqb s "")
  | VRef _ => true
  end.

(** ** JSON.stringify and JSON.parse *)

(** Serialisation follows references; [n] bounds the nesting depth.  A
    chain of more than [length h] nested references repeats a cell, so
    with [n = length h] the result is [None] only on a cyclic structure
    (where [JSON.stringify] throws) or on a reference to no cell
    (see [stringify_fuel_enough]). *)
Fixpoint stringify (n : nat) (h : list cell) (v : val) : option json :=
  match v with
  | VNull => Some JNull
  | VBool b => Some (JBool b)
  | VNum q => Some (JNum q)
  | VStr s => Some (JStr s)
  | VRef l =>
      match n with
      | O => None
      | S n' =>
          match h !! l with
          | Some (CObj ps) =>
              JObj <$> mapM (λ kv, (λ j, (kv.1, j)) <$> stringify n' h kv.2) ps
          | Some (CArr es) => JArr <$> mapM (stringify n' h) es
          | None => None
          end
      end
  end.

Definition JSON_stringify (v : val) : M json :=
  w <- get_world ;;
  match stringify (length (heap w)) (heap w) v with
  | Some j => ret j
  | None => throw ErrCircular
  end.

Definition parse_items (f : json → list cell → list cell * val)
  : list json → list cell → list cell * list val :=
  fix go js h :=
    match js with
    | [] => (h, [])
    | j :: js' =>
        let '(h1, v) := f j h in
        let '(h2, vs) := go js' h1 in
        (h2, v :: vs)
    end.

(** A repeated member name overwrites the earlier value. *)
Definition parse_members (f : json → list cell → list cell * val)
  : list (string * json) → list cell → list (string * val)
    → list cell * list (string * val) :=
  fix go kvs h ps :=
    match kvs with
    | [] => (h, ps)
    | kv :: kvs' =>
        let '(h1, v) := f kv.2 h in
        go kvs' h1 (assoc_set kv.1 v ps)
    end.

Fixpoint parse (j : json) (h : list cell) : list cell * val :=
  match j with
  | JNull => (h, VNull)
  | JBool b => (h, VBool b)
  | JNum q => (h, VNum q)
  | JStr s => (h, VStr s)
  | JArr js =>
      let '(h', vs) := parse_items parse js h in
      (h' ++ [CArr vs], VRef (length h'))
  | JObj kvs =>
      let '(h', ps) := parse_members parse kvs h [] in
      (h' ++ [CObj ps], VRef (length h'))
  end.

Definition JSON_parse (j : json) : M val :=
  λ w, let '(h', v) := parse j (heap w) in (Ret v, set_heap h' w).

(** ** mergeExtractedData *)

(** What [flatMap] appends for a callback result [v || []]: nothing for
    a falsy [v], the elements of [v] when it is an array, [v] itself
    otherwise. *)
Definition or_empty_flat (v : option val) : M (list val) :=
  match v with
  | None => ret []
  | Some x =>
      if truthy x then
        match x with
        | VRef l =>
            w <- get_world ;;
            match heap w !! l with
            | Some (CArr es) => ret es
            | _ => ret [x]
            end
        | _ => ret [x]
        end
      else ret []
  end.

(** [arr.flatMap(data => data[k] || [])] *)
Definition flatMap_field (k : string) (arr : list val) : M (list val) :=
  ls <- map_m (λ data, v <- get_prop data k ;; or_empty_flat v) arr ;;
  ret (concat ls).

(** [sum + (x || 0)] with [sum] a number.  A string or an object on the
    right makes JavaScript concatenate strings. *)
Definition add_or_zero (sum : Q) (x : option val) : M Q :=
  match x with
  | None => ret (sum + 0)%Q
  | Some v =>
      if truthy v then
        match v with
        | VNum q => ret (sum + q)%Q
        | VBool _ => ret (sum + 1)%Q
        | _ => stop OutsideModel
        end
      else ret (sum + 0)%Q
  end.

(** SameValueZero, the equality of [Set]. *)
Definition same_value_zero (a b : val) : bool :=
  match a, b with
  | VNull, VNull => true
  | VBool x, VBool y => Bool.eqb x y
  | VNum p, VNum q => Qeq_bool p q
  | VStr s, VStr t => String.eqb s t
  | VRef l, VRef m => Nat.eqb l m
  | _, _ => false
  end.

(** [[...new Set(l)]]: first occurrences, in order. *)
Definition unique (l : list val) : list val :=
  fold_left (λ seen x, if existsb (same_value_zero x) seen then seen else seen ++ [x]) l [].

Definition mergeExtractedData (extractedDataArray : list val) : M val :=
  match extractedDataArray with
  | [] => ret VNull
  | [r] => ret r
  | r0 :: _ =>
      text <- JSON_stringify r0 ;;
      merged <- JSON_parse text ;;
      items <- flatMap_field "line_items" extractedDataArray ;;
      a <- alloc (CArr items) ;;
      set_prop merged "line_items" a ;;;
      sum <- reduce (λ sum d,
                       c <- get_prop d "extraction_confidence" ;;
                       o <- get_prop_opt c "overall" ;;
                       add_or_zero sum o)
                    0%Q extractedDataArray ;;
      li <- get_prop merged "line_items" ;;
      n <- array_length li ;;
      c <- alloc (CObj [("overall",
                         if 0 <? Z.of_nat (length extractedDataArray)
                         then VNum (sum / inject_Z (Z.of_nat (length extractedDataArray)))
                         else VNull);
                        ("line_items", VNum (inject_Z n))]) ;;
      set_prop merged "extraction_confidence" c ;;;
      allMissingFields <- flatMap_field "missing_fields" extractedDataArray ;;
      u <- alloc (CArr (unique allMissingFields)) ;;
      set_prop merged "missing_fields" u ;;;
      ret merged
  end.

(** ** The batching loop of extractDataWithOpenAI *)

(** [l.slice(start, end)] for integer arguments: a negative index
    counts from the end, and both ends are clamped to the array. *)
Definition slice {A} (l : list A) (start end_ : Z) : list A :=
  let len := Z.of_nat (length l) in
  let k := if start <? 0 then Z.max (len + start) 0 else Z.min start len in
  let final := if end_ <? 0 then Z.max (len + end_) 0 else Z.min end_ len in
  take (Z.to_nat (Z.max (final - k) 0)) (drop (Z.to_nat k) l).

(** [for (let i = ...; i < allImagePaths.length; i += batchSize)
       batches.push(allImagePaths.slice(i, i + batchSize))]
    started at index [i] with [batches] already pushed.  One unit of
    fuel pays for one evaluation of the loop test; [None] means the loop
    is still running when the fuel ends. *)
Fixpoint batch_loop {A} (fuel : nat) (allImagePaths : list A) (batchSize i : Z)
    (batches : list (list A)) : option (list (list A)) :=
  match fuel with
  | O => None
  | S fuel' =>
      if i <? Z.of_nat (length allImagePaths) then
        batch_loop fuel' allImagePaths batchSize (i + batchSize)
          (batches ++ [slice allImagePaths i (i + batchSize)])
      else Some batches
  end.

Definition make_batches (fuel : nat) (allImagePaths : list fpath) (batchSize : Z)
  : M (list (list fpath)) :=
  match batch_loop fuel allImagePaths batchSize 0 [] with
  | Some batches => ret batches
  | None => stop OutOfFuel
  end.

(** [const batchSize = req.body.batchSize || 5] in the /api/extract
    route, for an integer or absent [batchSize]. *)
Definition route_batchSize (body_batchSize : option Z) : Z :=
  match body_batchSize with
  | Some b => if b =? 0 then 5 else b
  | None => 5
  end.

(** ** Strings *)

Definition ascii_lower (c : ascii) : ascii :=
  let n := nat_of_ascii c in
  if (65 <=? n)%nat && (n <=? 90)%nat then ascii_of_nat (n + 32) else c.
Definition ascii_upper (c : ascii) : ascii :=
  let n := nat_of_ascii c in
  if (97 <=? n)%nat && (n <=? 122)%nat then ascii_of_nat (n - 32) else c.

Fixpoint string_map (f : ascii → ascii) (s : string) : string :=
  match s with
  | EmptyString => EmptyString
  | String c s' => String (f c) (string_map f s')
  end.

(** [s.toLowerCase()] and [s.toUpperCase()] on ASCII text. *)
Definition toLowerCase : string → string := string_map ascii_lower.
Definition toUpperCase : string → string := string_map ascii_upper.

Definition startsWith (s pre : string) : bool := String.prefix pre s.
Definition endsWith (s suf : string) : bool :=
  let n := String.length s in
  let m := String.length suf in
  (m <=? n)%nat && String.eqb (String.substring (n - m) m s) suf.

Definition is_digit (c : ascii) : bool :=
  let n := nat_of_ascii c in (48 <=? n)%nat && (n <=? 57)%nat.

Fixpoint read_digits (s : string) (acc : Z) : Z :=
  match s with
  | EmptyString => acc
  | String c s' =>
      if is_digit c then read_digits s' (10 * acc + Z.of_nat (nat_of_ascii c - 48))
      else acc
  end.

(** [parseInt(a.match(/\d+/)?.[0] || 0)]: the first run of digits, read
    in base ten; 0 when the name has no digit. *)
Fixpoint page_number (a : string) : Z :=
  match a with
  | EmptyString => 0
  | String c a' => if is_digit c then read_digits a 0 else page_number a'
  end.

(** [files.sort((a, b) => key(a) - key(b))]; the sort of an array is
    stable. *)
Fixpoint insert_by {A} (key : A → Z) (x : A) (l : list A) : list A :=
  match l with
  | [] => [x]
  | y :: l' => if key x <=? key y then x :: y :: l' else y :: insert_by key x l'
  end.
Definition sort_by {A} (key : A → Z) (l : list A) : list A :=
  foldr (insert_by key) [] l.

(** ** The environment of a request *)

Record convert_result := ConvertResult {
  written : list string;      (* files pdf.convert wrote into the temp directory *)
  failure : option string     (* the message of the error it reported, if any *)
}.

Inductive reply :=
| ReplyError (msg : string)         (* the call rejects *)
| ReplyText (text : option json).   (* message.content; None: not JSON text *)

Record env := Env {
  path_extname : fpath → string;                 (* path.extname(p) *)
  file_bytes : fpath → option (list Z);          (* fs.readFileSync(p); None: it throws *)
  pdf_convert : fpath → convert_result;          (* pdf.convert(p, options) *)
  model_reply : prompt → list (string * list Z) → reply;
  unlink_fails : fpath → bool                    (* fs.unlinkSync(p) throws *)
}.

(** ** getPromptForDocumentType *)

Definition getPromptForDocumentType (documentType : string) : prompt :=
  let t := toUpperCase documentType in
  if String.eqb t "COMMERCIAL_INVOICE" then COMMERCIAL_INVOICE_PROMPT
  else if String.eqb t "INVOICE" then COMMERCIAL_INVOICE_PROMPT
  else if String.eqb t "HBL" then HBLPROMPT
  else if String.eqb t "MBL" then MBL_PROMPT
  else MBL_PROMPT.

(** ** isPdfFile *)

(** [buffer[i] === b] *)
Definition byte_is (buffer : list Z) (i : nat) (b : Z) : bool :=
  match buffer !! i with
  | Some x => x =? b
  | None => false
  end.

Definition isPdfFile (E : env) (filePath : fpath) : bool :=
  let ext := toLowerCase (path_extname E filePath) in
  if negb (String.eqb ext ".pdf") then false
  else
    match file_bytes E filePath with
    | Some buffer =>
        byte_is buffer 0 0x25 && byte_is buffer 1 0x50
        && byte_is buffer 2 0x44 && byte_is buffer 3 0x46
    | None => false
    end.

(** ** imageToBase64 *)

Definition exists_on_disk (p : fpath) : M bool :=
  w <- get_world ;; ret (bool_decide (p ∈ disk w)).

Definition mime_by_extension (ext : string) : string :=
  if String.eqb ext ".png" then "image/png"
  else if String.eqb ext ".jpg" then "image/jpeg"
  else if String.eqb ext ".jpeg" then "image/jpeg"
  else if String.eqb ext ".gif" then "image/gif"
  else if String.eqb ext ".webp" then "image/webp"
  else "image/png".

Definition detect_mime (E : env) (imagePath : fpath) (imageBuffer : list Z) : string :=
  let isPNG := byte_is imageBuffer 0 0x89 && byte_is imageBuffer 1 0x50
               && byte_is imageBuffer 2 0x4E && byte_is imageBuffer 3 0x47 in
  let isJPEG := byte_is imageBuffer 0 0xFF && byte_is imageBuffer 1 0xD8
                && byte_is imageBuffer 2 0xFF in
  let isGIF := byte_is imageBuffer 0 0x47 && byte_is imageBuffer 1 0x49
               && byte_is imageBuffer 2 0x46 && byte_is imageBuffer 3 0x38 in
  let isWEBP := byte_is imageBuffer 0 0x52 && byte_is imageBuffer 1 0x49
                && byte_is imageBuffer 2 0x46 && byte_is imageBuffer 3 0x46
                && byte_is imageBuffer 8 0x57 && byte_is imageBuffer 9 0x45
                && byte_is imageBuffer 10 0x42 && byte_is imageBuffer 11 0x50 in
  if isPNG then "image/png"
  else if isJPEG then "image/jpeg"
  else if isGIF then "image/gif"
  else if isWEBP then "image/webp"
  else mime_by_extension (toLowerCase (path_extname E imagePath)).

(** Returns the MIME type and the bytes that the base64 text encodes. *)
Definition imageToBase64 (E : env) (imagePath : fpath) : M (string * list Z) :=
  present <- exists_on_disk imagePath ;;
  if negb present then throw (ErrImageNotFound imagePath)
  else
    match file_bytes E imagePath with
    | None => throw (ErrRead imagePath)
    | Some imageBuffer => ret (detect_mime E imagePath imageBuffer, imageBuffer)
    end.

(** ** convertPdfToImages *)

(** [fs.readdirSync(tempDir)] *)
Definition readdir_temp (d : gset fpath) : list string :=
  omap (λ p, match p with InTemp f => Some f | Elsewhere _ => None end) (elements d).

Definition is_page_file (file : string) : bool :=
  startsWith file "page" && endsWith file ".png".

(** The page files of the temp directory, in page order. *)
Definition page_listing (d : gset fpath) : list fpath :=
  InTemp <$> sort_by page_number (filter (λ f, is_page_file f = true) (readdir_temp d)).

Definition convertPdfToImages (E : env) (pdfPath : fpath) : M (list fpath) :=
  try_catch
    (emit (EvRasterize pdfPath) ;;;
     let r := pdf_convert E pdfPath in
     modify (λ w, set_disk (disk w ∪ list_to_set (InTemp <$> written r)) w) ;;;
     match failure r with
     | Some msg => throw (ErrPoppler msg)
     | None => w <- get_world ;; ret (page_listing (disk w))
     end)
    (λ error, throw (ErrConvertFailed (match error with
                                        | ErrPoppler msg => msg
                                        | _ => ""
                                        end))).

(** ** cleanupTempImages *)

Definition unlinkSync (E : env) (p : fpath) : M unit :=
  if unlink_fails E p then throw (ErrUnlink p)
  else modify (λ w, set_disk (disk w ∖ {[p]}) w).

(** The two [forEach] callbacks. *)
Definition unlink_if_present (E : env) (imagePath : fpath) : M unit :=
  present <- exists_on_disk imagePath ;;
  if present then unlinkSync E imagePath else ret tt.

Definition unlink_if_page (E : env) (file : string) : M unit :=
  if is_page_file file then unlinkSync E (InTemp file) else ret tt.

(** The body of the [try] block of cleanupTempImages. *)
Definition cleanup_body (E : env) (imagePaths : list fpath) : M unit :=
  for_each (unlink_if_present E) imagePaths ;;;
  w <- get_world ;;
  for_each (unlink_if_page E) (readdir_temp (disk w)).

Definition cleanupTempImages (E : env) (imagePaths : list fpath) : M unit :=
  emit (EvCleanup imagePaths) ;;;
  try_catch (cleanup_body E imagePaths) (λ error, emit (EvWarn error)).

(** ** extractDataWithOpenAI *)

(** The body of the loop over the files. *)
Definition expand_file (E : env) (filePath : fpath) : M unit :=
  if isPdfFile E filePath then
    pdfImages <- convertPdfToImages E filePath ;;
    modify (λ w, set_allImagePaths (allImagePaths w ++ pdfImages) w) ;;;
    modify (λ w, set_allTempImagePaths (allTempImagePaths w ++ pdfImages) w)
  else
    modify (λ w, set_allImagePaths (allImagePaths w ++ [filePath]) w).

Definition validMimeTypes : list string :=
  ["image/png"; "image/jpeg"; "image/gif"; "image/webp"].

(** The body of the loop over the batches: the images of the batch are
    read, the model is called, its answer is parsed. *)
Definition process_batch (E : env) (extractionPrompt : prompt) (batch : list fpath)
  : M val :=
  imageContents <- map_m (λ imagePath,
                            r <- imageToBase64 E imagePath ;;
                            if negb (existsb (String.eqb r.1) validMimeTypes)
                            then throw (ErrInvalidMime r.1)
                            else ret r)
                         batch ;;
  emit (EvModelCall extractionPrompt batch) ;;;
  match model_reply E extractionPrompt imageContents with
  | ReplyError msg => throw (ErrProvider msg)
  | ReplyText None => throw ErrSyntax
  | ReplyText (Some outputText) => JSON_parse outputText
  end.

(** [if (allTempImagePaths.length > 0) cleanupTempImages(allTempImagePaths)] *)
Definition cleanup_if_any (E : env) : M unit :=
  w <- get_world ;;
  if (0 <? Z.of_nat (length (allTempImagePaths w))) then cleanupTempImages E (allTempImagePaths w)
  else ret tt.

(** The [try] block up to and including the merge. *)
Definition extract_stages (E : env) (fuel : nat) (files : list fpath) (batchSize : Z)
    (documentType : string) : M val :=
  for_each (expand_file E) files ;;;
  w <- get_world ;;
  if (Z.of_nat (length (allImagePaths w)) =? 0) then throw ErrNoImages
  else
    let extractionPrompt := getPromptForDocumentType documentType in
    batches <- make_batches fuel (allImagePaths w) batchSize ;;
    allExtractedData <- map_m (process_batch E extractionPrompt) batches ;;
    mergeExtractedData allExtractedData.

(** The body of the [try] block. *)
Definition extract_body (E : env) (fuel : nat) (files : list fpath) (batchSize : Z)
    (documentType : string) : M val :=
  mergedData <- extract_stages E fuel files batchSize documentType ;;
  cleanup_if_any E ;;;
  ret mergedData.

(** [files] is the normalised array of paths; [batchSize] and
    [documentType] are the arguments as passed (the route always passes
    both).  [fuel] bounds the tests of the batching loop. *)
Definition extractDataWithOpenAI (E : env) (fuel : nat) (files : list fpath)
    (batchSize : Z) (documentType : string) : M val :=
  modify (set_allImagePaths []) ;;;
  modify (set_allTempImagePaths []) ;;;
  try_catch
    (extract_body E fuel files batchSize documentType)
    (λ error,
       cleanup_if_any E ;;;
       emit (EvError error) ;;;
       throw error).

(** ** POST /api/extract *)

(** The body of the request, as far as the route reads it.
    [body_filePaths] is [Some] when [req.body.filePaths] is an array (of
    strings), [body_filePath] when [req.body.filePath] is a string,
    [body_batchSize] when [req.body.batchSize] is an integer. *)
Record extract_request := ExtractRequest {
  body_filePaths : option (list string);
  body_filePath : option string;
  body_batchSize : option Z;
  body_documentType : option string
}.

(** What the route answers: [res.json] with the data (status 200),
    status 404 with the missing files, status 500 with the error. *)
Inductive response :=
| Json200 (data : val) (filesProcessed : nat) (documentType : string)
| Json404 (missingFiles : list fpath)
| Json500 (error : error).

(** [s || d] for an optional string. *)
Definition or_default (s : option string) (d : string) : string :=
  match s with
  | Some x => if String.eqb x "" then d else x
  | None => d
  end.

(** The paths of the request.  [upload_path filename] is
    [path.resolve(__dirname, UPLOAD_DIR, path.basename(filename))] and
    [default_image] is [path.resolve(__dirname, IMAGE_PATH)]; neither is
    a file of the temp directory, since the base name of a path has no
    separator. *)
Definition route_filePaths (upload_path : string → string) (default_image : string)
    (body : extract_request) : list fpath :=
  match body_filePaths body with
  | Some filenames => (λ filename, Elsewhere (upload_path filename)) <$> filenames
  | None =>
      match body_filePath body with
      | Some filename =>
          if String.eqb filename "" then [Elsewhere default_image]
          else [Elsewhere (upload_path filename)]
      | None => [Elsewhere default_image]
      end
  end.

Definition api_extract (E : env) (upload_path : string → string) (default_image : string)
    (fuel : nat) (body : extract_request) : M response :=
  try_catch
    (let batchSize := route_batchSize (body_batchSize body) in
     let documentType := or_default (body_documentType body) "MBL" in
     let filePaths := route_filePaths upload_path default_image body in
     w <- get_world ;;
     let missingFiles := filter (λ filePath, filePath ∉ disk w) filePaths in
     if 0 <? Z.of_nat (length missingFiles) then ret (Json404 missingFiles)
     else
       extractedData <- extractDataWithOpenAI E fuel filePaths batchSize documentType ;;
       ret (Json200 extractedData (length filePaths) documentType))
    (λ error, ret (Json500 error)).

(** * Notions used in the statements *)

(** ** Batches and signatures *)

(** A batch of exactly [B] pages. *)
Definition full_batch {A} (B : Z) (b : list A) : Prop := Z.of_nat (length b) = B.

(** The bytes begin with the signature %PDF. *)
Definition has_pdf_signature (bytes : list Z) : Prop :=
  ∃ rest, bytes = 0x25 :: 0x50 :: 0x44 :: 0x46 :: rest.

(** ** Reading results in a store *)

(** [d.k] read in the store [h]; [None] when [d] is no object or has no
    such property. *)
Definition field (h : list cell) (d : val) (k : string) : option val :=
  match d with
  | VRef l => match h !! l with Some (CObj ps) => assoc k ps | _ => None end
  | _ => None
  end.

(** The elements of an array-valued field; none when the field is
    absent or null. *)
Definition elems_of (h : list cell) (v : option val) : list val :=
  match v with
  | Some (VRef l) => match h !! l with Some (CArr es) => es | _ => [] end
  | _ => []
  end.

Definition line_items_of (h : list cell) (r : val) : list val :=
  elems_of h (field h r "line_items").
Definition missing_fields_of (h : list cell) (r : val) : list val :=
  elems_of h (field h r "missing_fields").

(** [d.extraction_confidence?.overall], read in the store [h]. *)
Definition overall_of (h : list cell) (d : val) : option val :=
  match field h d "extraction_confidence" with
  | Some (VRef c) => field h (VRef c) "overall"
  | _ => None
  end.


(** What the reducer adds for a result: [overall || 0]. *)
Definition conf_term (h : list cell) (r : val) : Q :=
  match overall_of h r with
  | Some (VNum q) => if Qeq_bool q 0 then 0%Q else q
  | _ => 0%Q
  end.



(** The JSON content of an optional value: what [JSON.stringify] prints
    for it in the store [h]. *)
Definition content (h : list cell) (v : option val) : option json :=
  v ≫= stringify (length h) h.

(** First value of a member name in JSON text. *)
Fixpoint member (k : string) (kvs : list (string * json)) : option json :=
  match kvs with
  | [] => None
  | (k', j) :: kvs' => if String.eqb k k' then Some j else member k kvs'
  end.

(** The number of values in a JSON text, and the nesting depth of its
    arrays and objects. *)
Fixpoint jsize (j : json) : nat :=
  match j with
  | JArr js => S (sum_list_with jsize js)
  | JObj kvs => S (sum_list_with (λ kv, jsize kv.2) kvs)
  | _ => 1
  end.

Fixpoint jdepth (j : json) : nat :=
  match j with
  | JArr js => S (max_list_with jdepth js)
  | JObj kvs => S (max_list_with (λ kv, jdepth kv.2) kvs)
  | _ => 0
  end.

(** ** Well-formed extraction results *)

(** The field is an array, or null, or absent. *)
Definition array_or_absent (h : list cell) (v : option val) : bool :=
  match v with
  | None | Some VNull => true
  | Some (VRef l) => match h !! l with Some (CArr _) => true | _ => false end
  | Some _ => false
  end.

(** The overall member of [extraction_confidence], when there is one, is
    a number or null. *)
Definition confidence_ok (h : list cell) (v : option val) : bool :=
  match v with
  | None | Some (VNull | VBool _ | VNum _ | VStr _) => true
  | Some (VRef c) =>
      match h !! c with
      | Some (CObj ps) =>
          match assoc "overall" ps with
          | None | Some (VNull | VNum _) => true
          | Some _ => false
          end
      | Some (CArr _) => true
      | None => false
      end
  end.

(** An extraction result is an object whose [line_items] and
    [missing_fields] are arrays (or null, or absent) and whose overall
    confidence is a number (or null, or absent). *)
Definition result_ok (h : list cell) (r : val) : bool :=
  match r with
  | VRef l =>
      match h !! l with
      | Some (CObj ps) =>
          array_or_absent h (assoc "line_items" ps)
          && array_or_absent h (assoc "missing_fields" ps)
          && confidence_ok h (assoc "extraction_confidence" ps)
      | _ => false
      end
  | _ => false
  end.

Fixpoint nodupb (l : list string) : bool :=
  match l with
  | [] => true
  | k :: l' => negb (existsb (String.eqb k) l') && nodupb l'
  end.

(** No object of the text repeats a member name. *)
Fixpoint canonicalb (j : json) : bool :=
  match j with
  | JArr js => forallb canonicalb js
  | JObj kvs => nodupb (kvs.*1) && forallb (λ kv, canonicalb kv.2) kvs
  | _ => true
  end.

(** The results are well-formed, and the first one (the base of the
    merge) can be serialised: it is a finite tree of objects, none of
    which has a repeated property name.  Every value that [JSON.parse]
    builds is such a tree. *)
Definition well_formed (h : list cell) (rs : list val) : bool :=
  forallb (result_ok h) rs
  && match rs with
     | r0 :: _ =>
         match stringify (length h) h r0 with
         | Some j => canonicalb j
         | None => false
         end
     | [] => true
     end.

(** ** Stores and states *)

(** Every cell of [h] is still there, unchanged, in [h']. *)
Definition extends (h h' : list cell) : Prop :=
  ∀ l c, h !! l = Some c → h' !! l = Some c.

(** [v] is a primitive, or a reference that does not exist in [h]. *)
Definition fresh_for (h : list cell) (v : val) : Prop :=
  match v with VRef m => (length h ≤ m)%nat | _ => True end.

(** Parsing a text without repeated member names appends cells, and the
    value it returns prints back as the text. *)
Definition parse_prints (j : json) : Prop :=
  canonicalb j = true →
  ∀ h, ∃ ext v,
    parse j h = (h ++ ext, v)
    ∧ stringify (length (h ++ ext)) (h ++ ext) v = Some j.

(** Parsing any text only appends cells, and the value it returns is a
    primitive or a new reference. *)
Definition parse_appends (j : json) : Prop :=
  ∀ h, ∃ ext v, parse j h = (h ++ ext, v) ∧ fresh_for h v.

(** The properties of the merged object, from those of the deep copy of
    the first result, when the copy is the cell [m]: the three arrays and
    objects the merge builds are the cells [m + 1], [m + 2], [m + 3]. *)
Definition merged_props (m : nat) (copy : list (string * val)) : list (string * val) :=
  assoc_set "missing_fields" (VRef (m + 3))
    (assoc_set "extraction_confidence" (VRef (m + 2))
       (assoc_set "line_items" (VRef (m + 1)) copy)).

(** The object literal assigned to [merged.extraction_confidence]. *)
Definition merged_confidence (h : list cell) (rs : list val) : list (string * val) :=
  [("overall",
    VNum (fold_left (λ s r, (s + conf_term h r)%Q) rs 0%Q
          / inject_Z (Z.of_nat (length rs))));
   ("line_items", VNum (inject_Z (Z.of_nat (length (concat (line_items_of h <$> rs))))))].

(** [w] is [w0] with a store in which every cell of [w0] is unchanged. *)
Definition keeps (w0 w : world) : Prop :=
  ∃ h', w = set_heap h' w0 ∧ extends (heap w0) h'.

(** [c] preserves [keeps w0] on every exit, and its result satisfies [Q]. *)
Definition triple {A} (w0 : world) (c : M A) (Q : A → Prop) : Prop :=
  ∀ w, keeps w0 w → keeps w0 (c w).2 ∧ ∀ a, (c w).1 = Ret a → Q a.

(** [c] does not change the state. *)
Definition reads {A} (c : M A) : Prop := ∀ w, (c w).2 = w.

(** [w'] is [w] with some files removed from the disk. *)
Definition shrinks (w w' : world) : Prop :=
  ∃ d, w' = set_disk d w ∧ d ⊆ disk w.

(** The state in which the [try] block starts. *)
Definition reset (w : world) : world :=
  set_allTempImagePaths [] (set_allImagePaths [] w).

(** The state after [pdf.convert] ran on [p]: one call is logged and
    the files it wrote are on the disk. *)
Definition after_convert (E : env) (p : fpath) (w : world) : world :=
  set_disk (disk w ∪ list_to_set (InTemp <$> written (pdf_convert E p)))
           (add_log (EvRasterize p) w).

(** ** Notions of the further properties *)


(** A page file of the temp directory: [path.join(tempDir, file)] for a
    [file] that starts with page and ends with .png. *)
Definition is_temp_page (p : fpath) : bool :=
  match p with
  | InTemp file => is_page_file file
  | Elsewhere _ => false
  end.

(** [w'] has the disk and the two path lists of [w]. *)
Definition same_files (w w' : world) : Prop :=
  disk w' = disk w
  ∧ allImagePaths w' = allImagePaths w
  ∧ allTempImagePaths w' = allTempImagePaths w.

(** What the model is sent for an image: its MIME type and its bytes. *)
Definition image_content (E : env) (p : fpath) : option (string * list Z) :=
  match file_bytes E p with
  | Some imageBuffer => Some (detect_mime E p imageBuffer, imageBuffer)
  | None => None
  end.


(** The errors of the batch stage. *)
Definition batch_error (E : env) (d : gset fpath) (batches : list (list fpath))
    (e : error) : Prop :=
  (∃ b p, b ∈ batches ∧ p ∈ b
          ∧ (e = ErrImageNotFound p ∧ p ∉ d ∨ e = ErrRead p ∧ file_bytes E p = None))
  ∨ e = ErrSyntax
  ∨ ∃ msg, e = ErrProvider msg.

(** [c] throws only errors that satisfy [P]. *)
Definition throws_only {A} (c : M A) (P : error → Prop) : Prop :=
  ∀ w e, (c w).1 = Throw e → P e.

(** [w'] is [w] with some files removed from the disk, each of which
    satisfies [S]. *)
Definition removes (S : fpath → Prop) (w w' : world) : Prop :=
  ∃ d, w' = set_disk d w ∧ d ⊆ disk w ∧ ∀ p, p ∈ disk w → p ∉ d → S p.

(** * Properties *)

(** ** Batching *)

Section batching.
Context {A : Type}.
Implicit Types (P : list A) (B i : Z) (acc : list (list A)).

Lemma slice_inside P B i :
  0 ≤ i → 0 < B →
  slice P i (i + B)
  = take (Z.to_nat (Z.min B (Z.of_nat (length P) - i))) (drop (Z.to_nat i) P).
Proof.
  intros Hi HB. unfold slice.
  destruct (Z.ltb_spec i 0); [lia|].
  destruct (Z.ltb_spec (i + B) 0); [lia|].
  destruct (Z.le_gt_cases i (Z.of_nat (length P))) as [Hle|Hgt].
  - f_equal; [|f_equal]; lia.
  - rewrite (drop_ge P (Z.to_nat i)) by lia.
    rewrite (drop_ge P (Z.to_nat (Z.min i _))) by lia.
    by rewrite !take_nil.
Qed.

(** The loop with a non-positive step never leaves: whatever the fuel,
    it is still running when the fuel ends. *)
Lemma batch_loop_stuck fuel P B i acc :
  B ≤ 0 → i ≤ 0 → P ≠ [] → batch_loop fuel P B i acc = None.
Proof.
  intros HB Hi HP. revert i acc Hi.
  induction fuel as [|fuel IH]; intros i acc Hi; [done|].
  simpl. destruct (Z.ltb_spec i (Z.of_nat (length P))) as [_|Hge].
  - apply IH. lia.
  - destruct P; [done|]. simpl in Hge. lia.
Qed.

(** From index [B * k], with [k] full batches pushed that cover the
    first [B * k] pages, the loop ends with the remaining full batches
    followed by one last batch of between 1 and [B] pages. *)
Lemma batch_loop_from fuel P B k acc :
  0 < B → 0 ≤ k → B * k < Z.of_nat (length P) →
  Z.of_nat (length P) - B * k < Z.of_nat fuel →
  Forall (full_batch B) acc →
  concat acc = take (Z.to_nat (B * k)) P →
  ∃ full lastb,
    batch_loop fuel P B (B * k) acc = Some (full ++ [lastb])
    ∧ Forall (full_batch B) full
    ∧ 0 < Z.of_nat (length lastb) ≤ B
    ∧ concat (full ++ [lastb]) = P.
Proof.
  intros HB. revert k acc.
  induction fuel as [|fuel IH]; intros k acc Hk Hlt Hfuel Hfull Hcat; [lia|].
  simpl. destruct (Z.ltb_spec (B * k) (Z.of_nat (length P))) as [_|]; [|lia].
  rewrite slice_inside by lia.
  destruct (Z.lt_ge_cases (B * k + B) (Z.of_nat (length P))) as [Hmore|Hlast].
  - replace (B * k + B) with (B * (k + 1)) by lia.
    apply IH; [lia..| |].
    + apply Forall_app; split; [done|]. apply Forall_singleton.
      unfold full_batch. rewrite length_take, length_drop. lia.
    + rewrite concat_app, Hcat. simpl. rewrite app_nil_r.
      replace (Z.to_nat (B * (k + 1))) with (Z.to_nat (B * k) + Z.to_nat B)%nat by lia.
      rewrite <- take_take_drop. f_equal. f_equal. lia.
  - destruct fuel as [|fuel]; [lia|]. simpl.
    destruct (Z.ltb_spec (B * k + B) (Z.of_nat (length P))); [lia|].
    eexists acc, _. split; [done|]. split; [done|].
    rewrite take_ge by (rewrite length_drop; lia).
    split; [rewrite length_drop; lia|].
    rewrite concat_app, Hcat. simpl. rewrite app_nil_r. apply take_drop.
Qed.
End batching.

Lemma concat_full_batches {A} (B : Z) (full : list (list A)) :
  Forall (full_batch B) full →
  Z.of_nat (length (concat full)) = B * Z.of_nat (length full).
Proof.
  induction 1 as [|b full Hb _ IH]; simpl; [lia|].
  unfold full_batch in Hb. rewrite length_app. lia.
Qed.

(** C6.  For a positive batch size the loop ends (any fuel above the
    number of pages is enough) with ceil(len(P)/B) batches whose
    concatenation is P; every batch before the last has exactly B pages
    and the last has len(P) mod B pages, or B when B divides len(P). *)
Theorem partition_batches {A} (P : list A) (B : Z) (fuel : nat) :
  0 < B → (length P < fuel)%nat →
  ∃ batches,
    batch_loop fuel P B 0 [] = Some batches
    ∧ concat batches = P
    ∧ Z.of_nat (length batches) = (Z.of_nat (length P) + B - 1) / B
    ∧ (∀ k b, batches !! k = Some b → (S k < length batches)%nat →
              Z.of_nat (length b) = B)
    ∧ (∀ b, last batches = Some b →
            Z.of_nat (length b)
            = if Z.of_nat (length P) mod B =? 0 then B else Z.of_nat (length P) mod B).
Proof.
  intros HB Hfuel. destruct P as [|p P].
  - destruct fuel as [|fuel]; [simpl in Hfuel; lia|].
    exists []. simpl. repeat split; try done.
    symmetry. apply Z.div_small. lia.
  - destruct (batch_loop_from fuel (p :: P) B 0 []) as (full & lastb & Hrun & Hfull & Hlast & Hcat);
      [lia | lia | simpl; lia | simpl in *; lia | constructor | by rewrite Z.mul_0_r |].
    rewrite Z.mul_0_r in Hrun. exists (full ++ [lastb]).
    assert (Hlen : Z.of_nat (length (p :: P))
                   = B * Z.of_nat (length full) + Z.of_nat (length lastb)).
    { rewrite <- Hcat at 1. rewrite concat_app, length_app. simpl.
      rewrite app_nil_r, Nat2Z.inj_add, (concat_full_batches B) by done. lia. }
    split; [done|]. split; [done|]. rewrite Hlen, length_app. simpl. split; [|split].
    + apply (Z.div_unique _ _ _ (Z.of_nat (length lastb) - 1)); lia.
    + intros k b Hk Hkl. rewrite lookup_app_l in Hk by lia.
      by eapply (Forall_lookup_1 (full_batch B)).
    + intros b Hb. rewrite last_snoc in Hb. injection Hb as <-.
      destruct (Z.eq_dec (Z.of_nat (length lastb)) B) as [Heq|Hne].
      * replace ((B * Z.of_nat (length full) + Z.of_nat (length lastb)) mod B) with 0; [done|].
        apply (Z.mod_unique _ _ (Z.of_nat (length full) + 1)); lia.
      * replace ((B * Z.of_nat (length full) + Z.of_nat (length lastb)) mod B)
          with (Z.of_nat (length lastb)).
        -- destruct (Z.eqb_spec (Z.of_nat (length lastb)) 0); [lia|done].
        -- apply (Z.mod_unique _ _ (Z.of_nat (length full))); lia.
Qed.

Lemma partition_batches_witness :
  ∃ batches,
    batch_loop 6 [1; 2; 3; 4; 5] 2 0 [] = Some batches
    ∧ concat batches = [1; 2; 3; 4; 5]
    ∧ Z.of_nat (length batches) = (Z.of_nat (length [1; 2; 3; 4; 5]) + 2 - 1) / 2
    ∧ (∀ k b, batches !! k = Some b → (S k < length batches)%nat →
              Z.of_nat (length b) = 2)
    ∧ (∀ b, last batches = Some b →
            Z.of_nat (length b)
            = if Z.of_nat (length [1; 2; 3; 4; 5]) mod 2 =? 0 then 2
              else Z.of_nat (length [1; 2; 3; 4; 5]) mod 2).
Proof. apply (partition_batches [1; 2; 3; 4; 5] 2 6); [lia | simpl; lia]. Defined.

(** Against C2 as the specification words it: a non-positive batch size
    is not rejected.  With batchSize = -1 and one page the step throws
    nothing at all, it is still looping after 100 tests of the loop
    condition. *)
Lemma batch_size_rejected_counterexample :
  let w := World [] ∅ [] [] [] in
  (make_batches 100 [Elsewhere "uploads/a.png"] (-1) w).1 = Halt OutOfFuel
  ∧ ¬ ∃ e, (make_batches 100 [Elsewhere "uploads/a.png"] (-1) w).1 = Throw e.
Proof. split; [reflexivity|]. intros [e He]. vm_compute in He. discriminate. Qed.

(** C2, as the code has it.  Nothing validates the batch size and no
    error is raised for a non-positive one: the route replaces an absent
    or zero batchSize by 5, and a non-positive size that reaches the loop
    with pages to split never takes the index past the end, so the loop
    is still running whatever the fuel.  With no page the loop returns
    no batch. *)
Theorem batch_size_not_validated (fuel : nat) (pages : list fpath) (B : Z) (w : world) :
  B ≤ 0 →
  (pages ≠ [] → make_batches fuel pages B w = (Halt OutOfFuel, w))
  ∧ (pages = [] → fuel ≠ O → make_batches fuel pages B w = (Ret [], w))
  ∧ (∀ e, (make_batches fuel pages B w).1 ≠ Throw e)
  ∧ route_batchSize (Some 0) = 5 ∧ route_batchSize None = 5.
Proof.
  intros HB. split; [|split; [|split]].
  - intros Hp. unfold make_batches. by rewrite batch_loop_stuck.
  - intros -> Hf. destruct fuel; done.
  - intros e. unfold make_batches. by destruct (batch_loop _ _ _ _ _).
  - done.
Qed.

Lemma batch_size_not_validated_witness :
  let w := World [] ∅ [] [] [] in
  let pages := [Elsewhere "uploads/a.png"; Elsewhere "uploads/b.png"] in
  make_batches 7 pages (-3) w = (Halt OutOfFuel, w)
  ∧ (∀ e, (make_batches 7 pages (-3) w).1 ≠ Throw e)
  ∧ route_batchSize (Some 0) = 5 ∧ route_batchSize None = 5.
Proof.
  intros w pages.
  destruct (batch_size_not_validated 7 pages (-3) w) as (Hloop & _ & Hthrow & Hroute);
    [lia|].
  split; [by apply Hloop|]. split; assumption.
Defined.

(** ** The PDF test *)

Lemma byte_is_true buffer i b : byte_is buffer i b = true ↔ buffer !! i = Some b.
Proof.
  unfold byte_is. destruct (buffer !! i) as [x|]; [|done].
  rewrite Z.eqb_eq. split; congruence.
Qed.

(** Against C3 as the specification words it: a file with the
    signature %PDF and the extension .png is not classified as a PDF;
    [expand_file] takes it for an image. *)
Lemma pdf_by_signature_counterexample :
  let E := Env (λ _, ".png") (λ _, Some [0x25; 0x50; 0x44; 0x46; 0x2D; 0x31])
               (λ _, ConvertResult [] None) (λ _ _, ReplyText None) (λ _, false) in
  let scan := Elsewhere "uploads/scan.png" in
  (∃ bytes, file_bytes E scan = Some bytes ∧ has_pdf_signature bytes)
  ∧ isPdfFile E scan = false
  ∧ allImagePaths (expand_file E scan (World [] ∅ [] [] [])).2 = [scan].
Proof.
  intros E scan. split; [|split; reflexivity].
  eexists. split; [reflexivity|]. by eexists.
Qed.

(** C3, as the code has it.  A file is classified as a PDF exactly when
    its lower-cased extension is .pdf and its bytes can be read and
    begin with %PDF.  So the extension decides first, and a file whose
    bytes do not begin with %PDF is never a PDF. *)
Theorem isPdfFile_spec (E : env) (filePath : fpath) :
  isPdfFile E filePath = true
  ↔ toLowerCase (path_extname E filePath) = ".pdf"
    ∧ ∃ bytes, file_bytes E filePath = Some bytes ∧ has_pdf_signature bytes.
Proof.
  unfold isPdfFile, has_pdf_signature.
  destruct (String.eqb_spec (toLowerCase (path_extname E filePath)) ".pdf") as [Hext|Hext];
    simpl; [|split; [done | by intros [? _]]].
  destruct (file_bytes E filePath) as [buffer|]; [|split; [done | by intros (_ & ? & ? & _)]].
  rewrite !andb_true_iff, !byte_is_true. split.
  - intros [[[H0 H1] H2] H3]. split; [done|]. exists buffer. split; [done|].
    destruct buffer as [|b0 [|b1 [|b2 [|b3 rest]]]]; simplify_eq/=. by eexists.
  - intros (_ & bytes & [= <-] & rest & ->). done.
Qed.

(** ** The object store *)

Lemma bind_Ret {A B} (c : M A) (k : A → M B) w a w' :
  c w = (Ret a, w') → bind c k w = k a w'.
Proof. unfold bind. by intros ->. Qed.

Lemma extends_refl h : extends h h.
Proof. by intros l c. Qed.

Lemma extends_trans h1 h2 h3 : extends h1 h2 → extends h2 h3 → extends h1 h3.
Proof. intros H12 H23 l c Hl. eauto. Qed.

Lemma extends_app h ext : extends h (h ++ ext).
Proof. intros l c. apply lookup_app_l_Some. Qed.

Lemma extends_insert h h' m c :
  extends h h' → (length h ≤ m)%nat → extends h (<[m := c]> h').
Proof.
  intros Hext Hm l c' Hl. rewrite list_lookup_insert_ne.
  - by apply Hext.
  - apply lookup_lt_Some in Hl. lia.
Qed.

Lemma extends_length h h' : extends h h' → (length h ≤ length h')%nat.
Proof.
  intros Hext. destruct h as [|c h _] using rev_ind; [simpl; lia|].
  specialize (Hext (length h) c). rewrite list_lookup_middle in Hext by done.
  specialize (Hext eq_refl). apply lookup_lt_Some in Hext.
  rewrite length_app. simpl. lia.
Qed.

Lemma stringify_weaken n m h h' v j :
  (n ≤ m)%nat → extends h h' → stringify n h v = Some j → stringify m h' v = Some j.
Proof.
  intros Hnm Hext. revert m v j Hnm.
  induction n as [|n IH]; intros m v j Hnm Hs.
  - destruct v; destruct m; simpl in *; done.
  - destruct v as [| | | |l]; try (destruct m; simpl in *; done).
    destruct m as [|m]; [lia|]. simpl in *.
    destruct (h !! l) as [c|] eqn:Hl; [|done].
    rewrite (Hext _ _ Hl). destruct c as [ps|es].
    + apply fmap_Some in Hs as (kvs & Hm & ->). apply fmap_Some. exists kvs. split; [|done].
      apply mapM_Some. apply mapM_Some in Hm.
      eapply Forall2_impl; [done|]. intros kv kj Hkj. simpl in *.
      apply fmap_Some in Hkj as (j & Hj & ->). apply fmap_Some. exists j. split; [|done].
      apply IH; [lia|done].
    + apply fmap_Some in Hs as (js & Hm & ->). apply fmap_Some. exists js. split; [|done].
      apply mapM_Some. apply mapM_Some in Hm.
      eapply Forall2_impl; [done|]. intros x y Hxy. apply IH; [lia|done].
Qed.

(** *** The depth bound of JSON.stringify is enough *)

Lemma max_list_with_in {A} (f : A → nat) x l :
  x ∈ l → (f x ≤ max_list_with f l)%nat.
Proof.
  induction 1 as [x l|x y l _ IH]; simpl; lia.
Qed.

Lemma NoDup_below (ls : list nat) (n : nat) :
  NoDup ls → (∀ l, l ∈ ls → (l < n)%nat) → (length ls ≤ n)%nat.
Proof.
  intros Hnd Hlt. transitivity (length (seq 0 n)); [|by rewrite length_seq].
  apply submseteq_length, NoDup_submseteq; [done|].
  intros l Hl. apply elem_of_seq. specialize (Hlt l Hl). lia.
Qed.

(** A text is printed with as much fuel as it is deep. *)
Lemma stringify_depth n h v j :
  stringify n h v = Some j → stringify (jdepth j) h v = Some j.
Proof.
  revert v j. induction n as [|n IH]; intros v j Hs.
  - destruct v; simpl in Hs; by simplify_eq.
  - destruct v as [| | | |l]; try (simpl in Hs; by simplify_eq).
    simpl in Hs. destruct (h !! l) as [[ps|es]|] eqn:Hl; [| |done].
    + apply fmap_Some in Hs as (kvs & Hm & ->). simpl. rewrite Hl.
      apply fmap_Some. exists kvs. split; [|done].
      apply mapM_Some. apply mapM_Some in Hm.
      apply Forall2_same_length_lookup. split; [by eapply Forall2_length|].
      intros i pv kv Hpv Hkv.
      pose proof (Forall2_lookup_lr _ _ _ _ _ _ Hm Hpv Hkv) as Hi. simpl in Hi.
      apply fmap_Some in Hi as (jc & Hjc & ->). apply fmap_Some. exists jc. split; [|done].
      eapply stringify_weaken; [|apply extends_refl|by apply IH].
      apply (max_list_with_in (λ kv, jdepth kv.2) (pv.1, jc)).
      by eapply list_elem_of_lookup_2.
    + apply fmap_Some in Hs as (js & Hm & ->). simpl. rewrite Hl.
      apply fmap_Some. exists js. split; [|done].
      apply mapM_Some. apply mapM_Some in Hm.
      apply Forall2_same_length_lookup. split; [by eapply Forall2_length|].
      intros i x jc Hx Hjc.
      pose proof (Forall2_lookup_lr _ _ _ _ _ _ Hm Hx Hjc) as Hi. simpl in Hi.
      eapply stringify_weaken; [|apply extends_refl|by apply IH].
      apply (max_list_with_in jdepth jc). by eapply list_elem_of_lookup_2.
Qed.

(** Below a chain [anc] of enclosing objects, a printed text is no
    deeper than the cells that are left: a cell cannot lie inside its
    own text. *)
Lemma stringify_bounded n h v j (anc : list (nat * json)) :
  stringify n h v = Some j →
  NoDup anc.*1 →
  (∀ l t, (l, t) ∈ anc →
          (l < length h)%nat ∧ (∃ f, stringify f h (VRef l) = Some t)
          ∧ (jsize j < jsize t)%nat) →
  (jdepth j + length anc ≤ length h)%nat.
Proof.
  revert v j anc. induction n as [|n IH]; intros v j anc Hs Hnd Hanc.
  all: assert (Hroom : (length anc ≤ length h)%nat).
  1,3: rewrite <- (length_fmap fst); apply NoDup_below; [done|];
       intros l [[l' t] [-> Hin]]%list_elem_of_fmap; by apply (Hanc l' t).
  - destruct v; simpl in Hs; by simplify_eq.
  - destruct v as [| | | |l]; try (simpl in Hs; by simplify_eq).
    pose proof Hs as Hroot. simpl in Hs.
    destruct (h !! l) as [c|] eqn:Hl; [|done].
    assert (Hfresh : l ∉ anc.*1).
    { intros [[l' t] [-> Hin]]%list_elem_of_fmap.
      destruct (Hanc l' t Hin) as (_ & (f & Hf) & Hsize).
      pose proof (stringify_weaken (S n) (S n `max` f) h h _ _ ltac:(lia)
                    (extends_refl h) Hroot) as H1.
      pose proof (stringify_weaken f (S n `max` f) h h _ _ ltac:(lia)
                    (extends_refl h) Hf) as H2.
      cbn [fst] in H1. rewrite H1 in H2. injection H2 as ->. lia. }
    assert (Hnext : ∀ jc vc, stringify n h vc = Some jc → (jsize jc < jsize j)%nat →
                             (S (jdepth jc) + length anc ≤ length h)%nat).
    { intros jc vc Hjc Hlt.
      specialize (IH vc jc ((l, j) :: anc) Hjc). simpl in IH.
      rewrite <- Nat.add_succ_comm in IH. apply IH.
      - by constructor.
      - intros l' t [[= -> ->]|Hin]%elem_of_cons.
        + split; [by eapply lookup_lt_Some|]. split; [by eexists|done].
        + destruct (Hanc l' t Hin) as (? & ? & ?). split; [done|]. split; [done|]. lia. }
    assert (Hone : (1 + length anc ≤ length h)%nat).
    { change (length ((l, j) :: anc) ≤ length h)%nat.
      rewrite <- (length_fmap fst). apply NoDup_below.
      - simpl. by constructor.
      - intros l' [[l'' t] [-> [[= -> ->]|Hin]%elem_of_cons]]%list_elem_of_fmap.
        + by eapply lookup_lt_Some.
        + by apply (Hanc l'' t). }
    destruct c as [ps|es].
    + apply fmap_Some in Hs as (kvs & Hm & ->). apply mapM_Some in Hm.
      simpl. cut (max_list_with (λ kv, jdepth kv.2) kvs + S (length anc) ≤ length h)%nat; [lia|].
      assert (Hall : ∀ kv, kv ∈ kvs → (S (jdepth kv.2) + length anc ≤ length h)%nat).
      { intros kv Hkv. apply list_elem_of_lookup in Hkv as [i Hi].
        destruct (Forall2_lookup_r _ _ _ _ _ Hm Hi) as (pv & Hpv & Hp). simpl in Hp.
        apply fmap_Some in Hp as (jc & Hjc & ->). apply (Hnext jc pv.2 Hjc). simpl.
        pose proof (sum_list_with_in (pv.1, jc) (λ kv, jsize kv.2) kvs) as Hle.
        simpl in Hle. specialize (Hle ltac:(by eapply list_elem_of_lookup_2)). lia. }
      clear -Hall Hone. induction kvs as [|kv kvs IHk]; simpl; [lia|].
      pose proof (Hall kv ltac:(left)).
      specialize (IHk ltac:(intros; apply Hall; by right)). lia.
    + apply fmap_Some in Hs as (js & Hm & ->). apply mapM_Some in Hm.
      simpl. cut (max_list_with jdepth js + S (length anc) ≤ length h)%nat; [lia|].
      assert (Hall : ∀ jc, jc ∈ js → (S (jdepth jc) + length anc ≤ length h)%nat).
      { intros jc Hjc. apply list_elem_of_lookup in Hjc as [i Hi].
        destruct (Forall2_lookup_r _ _ _ _ _ Hm Hi) as (vc & Hvc & Hp).
        apply (Hnext jc vc Hp). simpl.
        pose proof (sum_list_with_in jc jsize js ltac:(by eapply list_elem_of_lookup_2)).
        lia. }
      clear -Hall Hone. induction js as [|jc js IHj]; simpl; [lia|].
      pose proof (Hall jc ltac:(left)).
      specialize (IHj ltac:(intros; apply Hall; by right)). lia.
Qed.

(** So the fuel [length h] of [JSON_stringify] is enough whenever any
    fuel is: it fails only on a structure that has no finite text. *)
Lemma stringify_fuel_enough n h v j :
  stringify n h v = Some j → stringify (length h) h v = Some j.
Proof.
  intros Hs. eapply stringify_weaken; [|apply extends_refl|by eapply stringify_depth].
  pose proof (stringify_bounded n h v j [] Hs) as Hb. simpl in Hb.
  rewrite Nat.add_0_r in Hb. apply Hb; [constructor|].
  intros l t Hin. by apply elem_of_nil in Hin.
Qed.

Lemma assoc_set_fresh k v ps :
  k ∉ ps.*1 → assoc_set k v ps = ps ++ [(k, v)].
Proof.
  induction ps as [|[k' v'] ps IH]; intros Hk; simpl; [done|].
  rewrite fmap_cons, not_elem_of_cons in Hk. destruct Hk as [Hne Hk]. simpl in Hne.
  destruct (String.eqb_spec k k'); [done|]. by rewrite IH.
Qed.

Lemma assoc_assoc_set k k' v ps :
  assoc k (assoc_set k' v ps) = if String.eqb k k' then Some v else assoc k ps.
Proof.
  induction ps as [|[k1 v1] ps IH]; simpl.
  - by destruct (String.eqb k k').
  - destruct (String.eqb_spec k' k1) as [->|Hne]; simpl.
    + by destruct (String.eqb k k1).
    + rewrite IH. destruct (String.eqb_spec k k1) as [->|]; [|done].
      destruct (String.eqb_spec k1 k'); [congruence|done].
Qed.

Lemma nodupb_NoDup l : nodupb l = true → NoDup l.
Proof.
  induction l as [|k l IH]; simpl; [constructor|].
  rewrite andb_true_iff, negb_true_iff. intros [Hk Hl]. constructor; [|auto].
  intros Hin. apply list_elem_of_In in Hin.
  assert (existsb (String.eqb k) l = true); [|congruence].
  apply existsb_exists. exists k. split; [done|]. apply String.eqb_refl.
Qed.

(** *** JSON.parse allocates a copy that prints back as the text *)

Lemma parse_items_prints js :
  Forall parse_prints js → forallb canonicalb js = true →
  ∀ h, ∃ ext vs,
    parse_items parse js h = (h ++ ext, vs)
    ∧ Forall2 (λ v j, stringify (length (h ++ ext)) (h ++ ext) v = Some j) vs js.
Proof.
  induction 1 as [|j js Hj _ IH]; intros Hcan h; simpl in *.
  - exists [], []. by rewrite app_nil_r.
  - apply andb_true_iff in Hcan as [Hcj Hcjs].
    destruct (Hj Hcj h) as (e1 & v & -> & Hv).
    destruct (IH Hcjs (h ++ e1)) as (e2 & vs & -> & Hvs).
    exists (e1 ++ e2), (v :: vs). rewrite app_assoc. split; [done|].
    constructor; [|done].
    eapply stringify_weaken; [|apply extends_app|done].
    rewrite !length_app. lia.
Qed.

Lemma parse_members_prints kvs :
  Forall (λ kv, parse_prints kv.2) kvs →
  forallb (λ kv, canonicalb kv.2) kvs = true →
  ∀ h ps0, NoDup (ps0.*1 ++ kvs.*1) →
  ∃ ext new,
    parse_members parse kvs h ps0 = (h ++ ext, ps0 ++ new)
    ∧ Forall2 (λ pv kv, pv.1 = kv.1
                        ∧ stringify (length (h ++ ext)) (h ++ ext) pv.2 = Some kv.2)
              new kvs.
Proof.
  induction 1 as [|[k j] kvs Hj _ IH]; intros Hcan h ps0 Hnd; simpl in *.
  - exists [], []. by rewrite !app_nil_r.
  - apply andb_true_iff in Hcan as [Hcj Hcjs].
    destruct (Hj Hcj h) as (e1 & v & -> & Hv).
    rewrite assoc_set_fresh; last first.
    { apply NoDup_app in Hnd as (_ & Hdisj & _). intros Hin.
      apply (Hdisj _ Hin). left. }
    destruct (IH Hcjs (h ++ e1) (ps0 ++ [(k, v)])) as (e2 & new & -> & Hnew).
    { rewrite fmap_app. simpl. by rewrite <- app_assoc. }
    exists (e1 ++ e2), ((k, v) :: new). rewrite !app_assoc. split.
    { by rewrite <- (app_assoc ps0). }
    rewrite <- app_assoc. constructor; [|by rewrite app_assoc].
    split; [done|]. simpl. rewrite app_assoc.
    eapply stringify_weaken; [|apply extends_app|done].
    rewrite !length_app. lia.
Qed.

Lemma parse_prints_all j : parse_prints j.
Proof.
  induction j as [|b|q|s|js IH|kvs IH] using json_nested_ind; intros Hcan h.
  1-4: eexists [], _; rewrite app_nil_r; split; [reflexivity|]; by destruct (length h).
  - simpl in Hcan. destruct (parse_items_prints js IH Hcan h) as (ext & vs & Hp & Hvs).
    simpl. rewrite Hp. exists (ext ++ [CArr vs]), (VRef (length (h ++ ext))).
    rewrite app_assoc. split; [done|].
    rewrite length_app, Nat.add_1_r. simpl.
    rewrite list_lookup_middle by done. simpl.
    apply fmap_Some. exists js. split; [|done]. apply mapM_Some.
    eapply Forall2_impl; [done|]. intros v j Hv.
    eapply stringify_weaken; [|apply extends_app|exact Hv]. lia.
  - simpl in Hcan. apply andb_true_iff in Hcan as [Hnd Hcan].
    destruct (parse_members_prints kvs IH Hcan h []) as (ext & new & Hp & Hnew).
    { simpl. by apply nodupb_NoDup. }
    simpl in *. rewrite Hp. exists (ext ++ [CObj new]), (VRef (length (h ++ ext))).
    rewrite app_assoc. split; [done|].
    rewrite length_app, Nat.add_1_r. simpl.
    rewrite list_lookup_middle by done. simpl.
    apply fmap_Some. exists kvs. split; [|done]. apply mapM_Some.
    eapply Forall2_impl; [done|]. intros [k v] [k' j] [-> Hv]. simpl in *.
    apply fmap_Some. exists j. split; [|done].
    eapply stringify_weaken; [|apply extends_app|exact Hv]. lia.
Qed.

Lemma parse_appends_all j : parse_appends j.
Proof.
  induction j as [|b|q|s|js IH|kvs IH] using json_nested_ind; intros h.
  1-4: eexists [], _; rewrite app_nil_r; split; [reflexivity|done].
  - assert (∃ ext vs, parse_items parse js h = (h ++ ext, vs)) as (ext & vs & Hp).
    { revert h. induction IH as [|j js Hj _ IHjs]; intros h; simpl.
      - exists [], []. by rewrite app_nil_r.
      - destruct (Hj h) as (e1 & v & -> & _).
        destruct (IHjs (h ++ e1)) as (e2 & vs & ->).
        exists (e1 ++ e2), (v :: vs). by rewrite app_assoc. }
    simpl. rewrite Hp. exists (ext ++ [CArr vs]), (VRef (length (h ++ ext))).
    rewrite app_assoc. split; [done|]. simpl. rewrite length_app. lia.
  - assert (∀ ps0, ∃ ext ps, parse_members parse kvs h ps0 = (h ++ ext, ps)) as Hm.
    { revert h. induction IH as [|[k j] kvs Hj _ IHkvs]; intros h ps0; simpl.
      - exists [], ps0. by rewrite app_nil_r.
      - destruct (Hj h) as (e1 & v & Hv & _). simpl in Hv. rewrite Hv.
        destruct (IHkvs (h ++ e1) (assoc_set k v ps0)) as (e2 & ps & ->).
        exists (e1 ++ e2), ps. by rewrite app_assoc. }
    destruct (Hm []) as (ext & ps & Hp).
    simpl. rewrite Hp. exists (ext ++ [CObj ps]), (VRef (length (h ++ ext))).
    rewrite app_assoc. split; [done|]. simpl. rewrite length_app. lia.
Qed.

(** *** Running the primitives *)

Lemma forallb_Forall_true {A} (f : A → bool) (l : list A) :
  forallb f l = true → Forall (λ x, f x = true) l.
Proof.
  induction l as [|x l IH]; simpl; [constructor|].
  rewrite andb_true_iff. intros [? ?]. constructor; auto.
Qed.

Lemma get_prop_obj w l ps k :
  heap w !! l = Some (CObj ps) → get_prop (VRef l) k w = (Ret (assoc k ps), w).
Proof. intros Hl. unfold get_prop, bind, get_world. by rewrite Hl. Qed.

Lemma set_prop_obj w l ps k v :
  heap w !! l = Some (CObj ps) →
  set_prop (VRef l) k v w
  = (Ret tt, set_heap (<[l := CObj (assoc_set k v ps)]> (heap w)) w).
Proof. intros Hl. unfold set_prop, bind, get_world. by rewrite Hl. Qed.

Lemma result_ok_inv h r :
  result_ok h r = true →
  ∃ l ps, r = VRef l ∧ h !! l = Some (CObj ps)
          ∧ array_or_absent h (assoc "line_items" ps) = true
          ∧ array_or_absent h (assoc "missing_fields" ps) = true
          ∧ confidence_ok h (assoc "extraction_confidence" ps) = true.
Proof.
  destruct r as [| | | |l]; try done. simpl.
  destruct (h !! l) as [[ps|]|] eqn:Hl; try done.
  rewrite !andb_true_iff. intros [[? ?] ?]. by exists l, ps.
Qed.

(** The callback of [flatMap] on an array-valued (or absent) field. *)
Lemma or_empty_flat_array w h v :
  extends h (heap w) → array_or_absent h v = true →
  or_empty_flat v w = (Ret (elems_of h v), w).
Proof.
  intros Hext Hv. destruct v as [[| | | |l]|]; try done. simpl in *.
  destruct (h !! l) as [[|es]|] eqn:Hl; try done.
  unfold bind, get_world. by rewrite (Hext _ _ Hl).
Qed.

Lemma flatMap_field_run w h k rs :
  extends h (heap w) →
  Forall (λ r, ∃ l ps, r = VRef l ∧ h !! l = Some (CObj ps)
                       ∧ array_or_absent h (assoc k ps) = true) rs →
  flatMap_field k rs w = (Ret (concat ((λ r, elems_of h (field h r k)) <$> rs)), w).
Proof.
  intros Hext Hrs. unfold flatMap_field.
  assert (map_m (λ data, v <- get_prop data k ;; or_empty_flat v) rs w
          = (Ret ((λ r, elems_of h (field h r k)) <$> rs), w)) as Hmap.
  { induction Hrs as [|r rs (l & ps & -> & Hl & Hk) _ IH]; [done|].
    simpl. erewrite bind_Ret; last first.
    { erewrite bind_Ret; [|by apply get_prop_obj, Hext].
      by apply (or_empty_flat_array w h). }
    erewrite bind_Ret; [|apply IH]. by rewrite Hl. }
  by erewrite bind_Ret.
Qed.

Lemma flatMap_line_items w h rs :
  extends h (heap w) → forallb (result_ok h) rs = true →
  flatMap_field "line_items" rs w = (Ret (concat (line_items_of h <$> rs)), w).
Proof.
  intros Hext Hrs. apply flatMap_field_run; [done|].
  apply forallb_Forall_true in Hrs. eapply Forall_impl; [done|].
  intros r Hr. simpl in Hr. apply result_ok_inv in Hr as (l & ps & ? & ? & ? & _).
  by exists l, ps.
Qed.

Lemma flatMap_missing_fields w h rs :
  extends h (heap w) → forallb (result_ok h) rs = true →
  flatMap_field "missing_fields" rs w = (Ret (concat (missing_fields_of h <$> rs)), w).
Proof.
  intros Hext Hrs. apply flatMap_field_run; [done|].
  apply forallb_Forall_true in Hrs. eapply Forall_impl; [done|].
  intros r Hr. simpl in Hr. apply result_ok_inv in Hr as (l & ps & ? & ? & _ & ? & _).
  by exists l, ps.
Qed.

(** One step of the reducer on a well-formed result. *)
Lemma confidence_step w h sum r :
  extends h (heap w) → result_ok h r = true →
  (c <- get_prop r "extraction_confidence" ;;
   o <- get_prop_opt c "overall" ;;
   add_or_zero sum o) w
  = (Ret (sum + conf_term h r)%Q, w).
Proof.
  intros Hext (l & ps & -> & Hl & _ & _ & Hc)%result_ok_inv.
  erewrite bind_Ret; [|by apply get_prop_obj, Hext].
  unfold conf_term, overall_of. simpl. rewrite Hl.
  destruct (assoc "extraction_confidence" ps) as [[| | | |c]|]; try done.
  simpl in Hc. destruct (h !! c) as [[cps|]|] eqn:Hcl; try done.
  - erewrite bind_Ret; [|by apply get_prop_obj, Hext].
    destruct (assoc "overall" cps) as [[| |q| |]|]; try done.
    simpl. by destruct (Qeq_bool q 0).
  - unfold get_prop_opt, get_prop, bind, get_world. by rewrite (Hext _ _ Hcl).
Qed.

Lemma reduce_confidence w h rs sum :
  extends h (heap w) → forallb (result_ok h) rs = true →
  reduce (λ sum d,
            c <- get_prop d "extraction_confidence" ;;
            o <- get_prop_opt c "overall" ;;
            add_or_zero sum o) sum rs w
  = (Ret (fold_left (λ s r, (s + conf_term h r)%Q) rs sum), w).
Proof.
  intros Hext. revert sum. induction rs as [|r rs IH]; intros sum Hrs; [done|].
  simpl in Hrs. apply andb_true_iff in Hrs as [Hr Hrs]. simpl.
  erewrite bind_Ret; [|by apply confidence_step]. by apply IH.
Qed.

(** *** The run of mergeExtractedData on two or more well-formed results *)

Lemma members_lookup (g : val → option json) ps kvs k :
  Forall2 (λ pv kv, pv.1 = kv.1 ∧ g pv.2 = Some kv.2) ps kvs →
  assoc k ps ≫= g = member k kvs.
Proof.
  induction 1 as [|[k1 v] [k2 j] ps kvs [Hk Hv] _ IH]; [done|].
  simpl in *. subst k2. by destruct (String.eqb k k1).
Qed.

Lemma set_heap_set_heap x y w : set_heap x (set_heap y w) = set_heap x w.
Proof. done. Qed.

Lemma alloc_at w hc cells c :
  alloc c (set_heap (hc ++ cells) w)
  = (Ret (VRef (length hc + length cells)), set_heap (hc ++ cells ++ [c]) w).
Proof. unfold alloc. cbn [heap set_heap]. by rewrite length_app, app_assoc. Qed.

Lemma get_prop_at w hc ps tl k :
  get_prop (VRef (length hc)) k (set_heap (hc ++ CObj ps :: tl) w)
  = (Ret (assoc k ps), set_heap (hc ++ CObj ps :: tl) w).
Proof. apply get_prop_obj. cbn [heap set_heap]. by apply list_lookup_middle. Qed.

Lemma set_prop_at w hc ps tl k v :
  set_prop (VRef (length hc)) k v (set_heap (hc ++ CObj ps :: tl) w)
  = (Ret tt, set_heap (hc ++ CObj (assoc_set k v ps) :: tl) w).
Proof.
  erewrite set_prop_obj; [|cbn [heap set_heap]; by apply list_lookup_middle].
  cbn [heap set_heap]. rewrite set_heap_set_heap. do 2 f_equal.
  rewrite insert_app_r_alt by done. by rewrite Nat.sub_diag.
Qed.

Lemma array_length_at w hc cells i es :
  cells !! i = Some (CArr es) →
  array_length (Some (VRef (length hc + i))) (set_heap (hc ++ cells) w)
  = (Ret (Z.of_nat (length es)), set_heap (hc ++ cells) w).
Proof.
  intros Hi. unfold array_length, bind, get_world. cbn [heap set_heap].
  rewrite lookup_app_r by lia. replace (length hc + i - length hc)%nat with i by lia.
  by rewrite Hi.
Qed.

Lemma extends_app_r h hc cells : extends h hc → extends h (hc ++ cells).
Proof. intros H. eapply extends_trans; [done|apply extends_app]. Qed.

Lemma merge_run w r0 r1 rest :
  let rs := r0 :: r1 :: rest in
  let h := heap w in
  well_formed h rs = true →
  ∃ ext copy,
    let hc := h ++ ext in
    let m := length hc in
    (∀ k h', extends hc h' → content h' (assoc k copy) = content h (field h r0 k))
    ∧ mergeExtractedData rs w
      = (Ret (VRef m),
         set_heap (hc ++ [CObj (merged_props m copy);
                          CArr (concat (line_items_of h <$> rs));
                          CObj (merged_confidence h rs);
                          CArr (unique (concat (missing_fields_of h <$> rs)))]) w).
Proof.
  intros rs h Hwf. unfold well_formed in Hwf.
  apply andb_true_iff in Hwf as [Hrs Hser]. simpl in Hser.
  destruct (stringify (length h) h r0) as [j0|] eqn:Hj0; [|done].
  assert (Hr0 : result_ok h r0 = true) by (simpl in Hrs; by apply andb_true_iff in Hrs as [? _]).
  apply result_ok_inv in Hr0 as (l0 & ps0 & -> & Hl0 & _).
  destruct (length h) as [|n] eqn:Hlen; [done|]. simpl in Hj0. rewrite Hl0 in Hj0.
  apply fmap_Some in Hj0 as (kvs & Hkvs & ->). simpl in Hser.
  apply andb_true_iff in Hser as [Hnd Hcan].
  destruct (parse_members_prints kvs (Forall_true _ _ (λ kv, parse_prints_all kv.2)) Hcan h [])
    as (ext & copy & Hparse & Hcopy); [by apply nodupb_NoDup|].
  simpl in Hparse. exists ext, copy. split.
  - intros k h' Hh'. unfold content at 1.
    rewrite (members_lookup _ _ kvs); last first.
    { eapply Forall2_impl; [done|]. intros pv kv [? Hpv]. split; [done|].
      eapply stringify_weaken; [|done..]. by apply extends_length. }
    unfold content, field. rewrite Hl0.
    apply mapM_Some in Hkvs. clear -Hkvs Hlen.
    induction Hkvs as [|[k1 v] [k2 j] ps kvs Hv _ IH]; [done|].
    simpl in *. apply fmap_Some in Hv as (j' & Hj' & [= -> ->]).
    destruct (String.eqb k k1); [|done]. simpl. symmetry.
    eapply stringify_weaken; [|apply extends_refl|done]. lia.
  - subst rs. unfold mergeExtractedData. set (rs := VRef l0 :: r1 :: rest) in *.
    erewrite bind_Ret; last first.
    { unfold JSON_stringify, bind, get_world. fold h. rewrite Hlen. simpl.
      rewrite Hl0, Hkvs. reflexivity. }
    erewrite bind_Ret; last first.
    { unfold JSON_parse. simpl. fold h. rewrite Hparse. reflexivity. }
    assert (Hhc : extends h (h ++ ext)) by apply extends_app.
    set (hc := h ++ ext) in *. set (m := length hc).
    erewrite bind_Ret; [|by apply (flatMap_line_items _ h); [apply extends_app_r|]].
    erewrite bind_Ret; [|apply alloc_at].
    erewrite bind_Ret; [|apply set_prop_at].
    erewrite bind_Ret; [|by apply (reduce_confidence _ h); [apply extends_app_r|]].
    erewrite bind_Ret; [|apply get_prop_at].
    rewrite assoc_assoc_set, String.eqb_refl. cbn [length].
    erewrite bind_Ret; [|by apply array_length_at].
    erewrite bind_Ret; [|apply alloc_at].
    erewrite bind_Ret; [|apply set_prop_at].
    erewrite bind_Ret; [|by apply (flatMap_missing_fields _ h); [apply extends_app_r|]].
    erewrite bind_Ret; [|apply alloc_at].
    erewrite bind_Ret; [|apply set_prop_at].
    cbn [length app].
    destruct (Z.ltb_spec 0 (Z.of_nat (length rs))) as [_|Hle]; [done|].
    simpl in Hle. lia.
Qed.

Lemma lookup_after hc (cells : list cell) i : (hc ++ cells) !! (length hc + i)%nat = cells !! i.
Proof. rewrite lookup_app_r by lia. f_equal. lia. Qed.

(** The result of the merge, read back from the final store. *)
Lemma merge_result w r0 r1 rest :
  let rs := r0 :: r1 :: rest in
  let h := heap w in
  well_formed h rs = true →
  ∃ m w',
    mergeExtractedData rs w = (Ret (VRef m), w')
    ∧ (length h ≤ m)%nat ∧ extends h (heap w')
    ∧ field (heap w') (VRef m) "line_items" = Some (VRef (m + 1))
    ∧ heap w' !! (m + 1)%nat = Some (CArr (concat (line_items_of h <$> rs)))
    ∧ field (heap w') (VRef m) "extraction_confidence" = Some (VRef (m + 2))
    ∧ heap w' !! (m + 2)%nat = Some (CObj (merged_confidence h rs))
    ∧ field (heap w') (VRef m) "missing_fields" = Some (VRef (m + 3))
    ∧ heap w' !! (m + 3)%nat = Some (CArr (unique (concat (missing_fields_of h <$> rs))))
    ∧ (∀ k, k ≠ "line_items" → k ≠ "extraction_confidence" → k ≠ "missing_fields" →
            content (heap w') (field (heap w') (VRef m) k) = content h (field h r0 k)).
Proof.
  intros rs h Hwf. destruct (merge_run w r0 r1 rest Hwf) as (ext & copy & Hcontent & Hrun).
  fold rs h in Hrun, Hcontent. set (hc := h ++ ext) in *. set (m := length hc) in *.
  eexists m, _. split; [exact Hrun|]. cbn [heap set_heap].
  assert (Hroot : ∀ k, field (hc ++ [CObj (merged_props m copy);
                                      CArr (concat (line_items_of h <$> rs));
                                      CObj (merged_confidence h rs);
                                      CArr (unique (concat (missing_fields_of h <$> rs)))])
                             (VRef m) k
                       = assoc k (merged_props m copy)).
  { intros k. unfold field. by rewrite list_lookup_middle. }
  split; [subst m hc; rewrite length_app; lia|].
  split; [apply extends_app_r, extends_app|].
  rewrite !Hroot. unfold merged_props. rewrite !assoc_assoc_set.
  split; [done|]. split; [exact (lookup_after hc _ 1%nat)|].
  split; [done|]. split; [exact (lookup_after hc _ 2%nat)|].
  split; [done|]. split; [exact (lookup_after hc _ 3%nat)|].
  intros k H1 H2 H3. rewrite Hroot. unfold merged_props. rewrite !assoc_assoc_set.
  destruct (String.eqb_spec k "missing_fields"); [done|].
  destruct (String.eqb_spec k "extraction_confidence"); [done|].
  destruct (String.eqb_spec k "line_items"); [done|].
  apply Hcontent, extends_app.
Qed.

(** ** The merged document *)






Lemma merged_overall_example :
  let h := [CObj [("overall", VNum (4 # 5))];
            CObj [("extraction_confidence", VRef 0)];
            CObj [("overall", VNum (3 # 5))];
            CObj [("extraction_confidence", VRef 2)]] in
  let out := mergeExtractedData [VRef 1; VRef 3] (World h ∅ [] [] []) in
  out.1 = Ret (VRef 5)
  ∧ field (heap out.2) (VRef 5) "extraction_confidence" = Some (VRef 7)
  ∧ ∃ q, field (heap out.2) (VRef 7) "overall" = Some (VNum q) ∧ (q == 7 # 10)%Q.
Proof. do 2 (split; [reflexivity|]). eexists. split; [reflexivity|by vm_compute]. Qed.

Lemma length_concat_items h (rs : list val) :
  length (concat (line_items_of h <$> rs))
  = sum_list_with (λ r, length (line_items_of h r)) rs.
Proof.
  induction rs as [|r rs IH]; [done|].
  rewrite fmap_cons. simpl. rewrite length_app. by rewrite IH.
Qed.

(** C7.  For two or more well-formed results the merged line_items is a
    new array holding the items of each result, in batch order and in
    their order within the batch, nothing removed; its length is the sum
    of the per-batch lengths, a result without line_items adding none;
    and the merged extraction_confidence.line_items is that length. *)
Theorem merged_line_items (w : world) (r0 r1 : val) (rest : list val) :
  let rs := r0 :: r1 :: rest in
  let h := heap w in
  well_formed h rs = true →
  ∃ m a c w',
    mergeExtractedData rs w = (Ret (VRef m), w')
    ∧ field (heap w') (VRef m) "line_items" = Some (VRef a)
    ∧ heap w' !! a = Some (CArr (concat (line_items_of h <$> rs)))
    ∧ length (concat (line_items_of h <$> rs))
      = sum_list_with (λ r, length (line_items_of h r)) rs
    ∧ (∀ r, field h r "line_items" = None → line_items_of h r = [])
    ∧ field (heap w') (VRef m) "extraction_confidence" = Some (VRef c)
    ∧ field (heap w') (VRef c) "line_items"
      = Some (VNum (inject_Z (Z.of_nat (length (concat (line_items_of h <$> rs)))))).
Proof.
  intros rs h Hwf.
  destruct (merge_result w r0 r1 rest Hwf)
    as (m & w' & Hrun & _ & _ & Hli & Harr & Hc & Hconf & _).
  fold rs h in Hrun, Harr, Hconf.
  exists m, (m + 1)%nat, (m + 2)%nat, w'.
  split; [exact Hrun|]. split; [exact Hli|]. split; [exact Harr|].
  split; [apply length_concat_items|].
  split; [by intros r Hr; unfold line_items_of; rewrite Hr|].
  split; [exact Hc|]. unfold field. by rewrite Hconf.
Qed.

Lemma merged_line_items_witness :
  let h := [CObj [("description", VStr "bolt")];
            CObj [("description", VStr "nut")];
            CArr [VRef 0; VRef 1];
            CObj [("line_items", VRef 2)];
            CObj [("description", VStr "bolt")];
            CArr [VRef 4];
            CObj [("line_items", VRef 5)];
            CObj [("invoice_number", VStr "A1")]] in
  let w := World h ∅ [] [] [] in
  let rs := [VRef 3; VRef 6; VRef 7] in
  ∃ m a c w',
    mergeExtractedData rs w = (Ret (VRef m), w')
    ∧ field (heap w') (VRef m) "line_items" = Some (VRef a)
    ∧ heap w' !! a = Some (CArr (concat (line_items_of h <$> rs)))
    ∧ length (concat (line_items_of h <$> rs))
      = sum_list_with (λ r, length (line_items_of h r)) rs
    ∧ (∀ r, field h r "line_items" = None → line_items_of h r = [])
    ∧ field (heap w') (VRef m) "extraction_confidence" = Some (VRef c)
    ∧ field (heap w') (VRef c) "line_items"
      = Some (VNum (inject_Z (Z.of_nat (length (concat (line_items_of h <$> rs)))))).
Proof.
  intros h w rs. apply (merged_line_items w (VRef 3) (VRef 6) [VRef 7]). reflexivity.
Defined.

(** Two equal line items on two pages are both kept, in batch order. *)
Lemma merged_line_items_example :
  let h := [CObj [("description", VStr "bolt")];
            CObj [("description", VStr "nut")];
            CArr [VRef 0; VRef 1];
            CObj [("line_items", VRef 2)];
            CObj [("description", VStr "bolt")];
            CArr [VRef 4];
            CObj [("line_items", VRef 5)];
            CObj [("invoice_number", VStr "A1")]] in
  concat (line_items_of h <$> [VRef 3; VRef 6; VRef 7]) = [VRef 0; VRef 1; VRef 4].
Proof. reflexivity. Qed.

(** The recomputed extraction_confidence replaces the first result's:
    a member such as header = 0.9 of the first result's
    extraction_confidence is no field of the merged result. *)
Lemma merged_confidence_replaced_example :
  let h := [CObj [("overall", VNum (4 # 5)); ("header", VNum (9 # 10))];
            CObj [("invoice_number", VStr "A1"); ("extraction_confidence", VRef 0)];
            CObj [("line_items", VNull)]] in
  let out := mergeExtractedData [VRef 1; VRef 2] (World h ∅ [] [] []) in
  well_formed h [VRef 1; VRef 2] = true
  ∧ ∃ m c c0,
      out.1 = Ret (VRef m)
      ∧ field h (VRef 1) "extraction_confidence" = Some (VRef c0)
      ∧ field h (VRef c0) "header" = Some (VNum (9 # 10))
      ∧ field (heap out.2) (VRef m) "extraction_confidence" = Some (VRef c)
      ∧ field (heap out.2) (VRef c) "header" = None.
Proof. split; [reflexivity|]. eexists _, _, _. repeat split; reflexivity. Qed.

(** C9.  For two or more well-formed results, the fields of the merged
    result are line_items, missing_fields, an extraction_confidence
    made of exactly the two recomputed values overall and line_items,
    and the other top-level fields; each of these other fields has
    exactly the JSON content it has in the first result, with all that
    is nested in it (a field absent from the first result is absent from
    the merged one). *)
Theorem merged_frame (w : world) (r0 r1 : val) (rest : list val) :
  let rs := r0 :: r1 :: rest in
  let h := heap w in
  well_formed h rs = true →
  ∃ m c w',
    mergeExtractedData rs w = (Ret (VRef m), w')
    ∧ (∀ k, k ≠ "line_items" → k ≠ "extraction_confidence" → k ≠ "missing_fields" →
            content (heap w') (field (heap w') (VRef m) k) = content h (field h r0 k))
    ∧ field (heap w') (VRef m) "extraction_confidence" = Some (VRef c)
    ∧ ∃ overall count,
        heap w' !! c = Some (CObj [("overall", overall); ("line_items", count)]).
Proof.
  intros rs h Hwf.
  destruct (merge_result w r0 r1 rest Hwf)
    as (m & w' & Hrun & _ & _ & _ & _ & Hc & Hconf & _ & _ & Hframe).
  exists m, (m + 2)%nat, w'. split; [exact Hrun|]. split; [exact Hframe|].
  split; [exact Hc|]. eexists _, _. exact Hconf.
Qed.

Lemma merged_frame_witness :
  let h := [CObj [("name", VStr "ACME"); ("address", VNull)];
            CObj [("shipper", VRef 0)];
            CObj [("overall", VNum (4 # 5)); ("header", VNum (9 # 10))];
            CObj [("invoice_number", VStr "A1"); ("parties", VRef 1);
                  ("extraction_confidence", VRef 2)];
            CObj [("invoice_number", VNull)]] in
  let w := World h ∅ [] [] [] in
  ∃ m c w',
    mergeExtractedData [VRef 3; VRef 4] w = (Ret (VRef m), w')
    ∧ (∀ k, k ≠ "line_items" → k ≠ "extraction_confidence" → k ≠ "missing_fields" →
            content (heap w') (field (heap w') (VRef m) k) = content h (field h (VRef 3) k))
    ∧ field (heap w') (VRef m) "extraction_confidence" = Some (VRef c)
    ∧ ∃ overall count,
        heap w' !! c = Some (CObj [("overall", overall); ("line_items", count)]).
Proof.
  intros h w. apply (merged_frame w (VRef 3) (VRef 4) []). reflexivity.
Defined.

(** The nested party block of the first result passes through. *)
Lemma merged_frame_example :
  let h := [CObj [("name", VStr "ACME"); ("address", VNull)];
            CObj [("shipper", VRef 0)];
            CObj [("invoice_number", VStr "A1"); ("parties", VRef 1)];
            CObj [("invoice_number", VStr "B2")]] in
  let out := mergeExtractedData [VRef 2; VRef 3] (World h ∅ [] [] []) in
  out.1 = Ret (VRef 6)
  ∧ content (heap out.2) (field (heap out.2) (VRef 6) "parties")
    = Some (JObj [("shipper", JObj [("name", JStr "ACME"); ("address", JNull)])])
  ∧ content (heap out.2) (field (heap out.2) (VRef 6) "invoice_number")
    = Some (JStr "A1").
Proof. repeat split; reflexivity. Qed.

(** ** What the merge leaves alone *)

Lemma keeps_refl w : keeps w w.
Proof. exists (heap w). split; [by destruct w|apply extends_refl]. Qed.

Lemma triple_ret {A} w0 (a : A) (Q : A → Prop) : Q a → triple w0 (ret a) Q.
Proof. intros HQ w Hw. split; [done|]. by intros ? [= <-]. Qed.

Lemma triple_bind {A B} w0 (c : M A) (k : A → M B) (Q : A → Prop) (Q' : B → Prop) :
  triple w0 c Q → (∀ a, Q a → triple w0 (k a) Q') → triple w0 (bind c k) Q'.
Proof.
  intros Hc Hk w Hw. destruct (Hc w Hw) as [Hkeep HQ]. unfold bind.
  destruct (c w) as [[a|e|r] w']; simpl in *; [|done..].
  by apply (Hk a (HQ a eq_refl)).
Qed.

Lemma triple_weaken {A} w0 (c : M A) (Q Q' : A → Prop) :
  triple w0 c Q → (∀ a, Q a → Q' a) → triple w0 c Q'.
Proof. intros Hc HQ w Hw. destruct (Hc w Hw). split; auto. Qed.

Lemma triple_reads {A} w0 (c : M A) : reads c → triple w0 c (λ _, True).
Proof. intros Hc w Hw. by rewrite Hc. Qed.

Lemma reads_ret {A} (a : A) : reads (ret a).
Proof. done. Qed.

Lemma reads_bind {A B} (c : M A) (k : A → M B) :
  reads c → (∀ a, reads (k a)) → reads (bind c k).
Proof.
  intros Hc Hk w. unfold bind. specialize (Hc w).
  destruct (c w) as [[a|e|r] w']; simpl in *; subst; [apply Hk|done..].
Qed.

Lemma reads_get_prop d k : reads (get_prop d k).
Proof.
  intros w. destruct d as [| | | |l]; try done.
  unfold get_prop, bind, get_world. by destruct (heap w !! l) as [[]|].
Qed.

Lemma reads_get_prop_opt d k : reads (get_prop_opt d k).
Proof. destruct d as [[]|]; try done; apply reads_get_prop. Qed.

Lemma reads_or_empty_flat v : reads (or_empty_flat v).
Proof.
  intros w. destruct v as [x|]; [|done]. unfold or_empty_flat.
  destruct (truthy x); [|done]. destruct x as [| | | |l]; try done.
  unfold bind, get_world. by destruct (heap w !! l) as [[]|].
Qed.

Lemma reads_add_or_zero sum x : reads (add_or_zero sum x).
Proof.
  intros w. destruct x as [v|]; [|done]. unfold add_or_zero.
  destruct (truthy v); [|done]. by destruct v.
Qed.

Lemma reads_array_length a : reads (array_length a).
Proof.
  intros w. destruct a as [[| | | |l]|]; try done.
  unfold array_length, bind, get_world. by destruct (heap w !! l) as [[]|].
Qed.

Lemma reads_JSON_stringify v : reads (JSON_stringify v).
Proof.
  intros w. unfold JSON_stringify, bind, get_world.
  by destruct (stringify _ _ _).
Qed.

Lemma reads_map_m {A B} (f : A → M B) l : (∀ x, reads (f x)) → reads (map_m f l).
Proof.
  intros Hf. induction l as [|x l IH]; [done|]. simpl.
  apply reads_bind; [done|]. intros y. apply reads_bind; [done|]. by intros ys.
Qed.

Lemma reads_reduce {A B} (f : B → A → M B) init l :
  (∀ b x, reads (f b x)) → reads (reduce f init l).
Proof.
  intros Hf. revert init. induction l as [|x l IH]; intros init; [done|]. simpl.
  by apply reads_bind.
Qed.

Lemma reads_flatMap_field k arr : reads (flatMap_field k arr).
Proof.
  apply reads_bind; [|done]. apply reads_map_m. intros data.
  apply reads_bind; [apply reads_get_prop|apply reads_or_empty_flat].
Qed.

Lemma triple_alloc w0 c : triple w0 (alloc c) (fresh_for (heap w0)).
Proof.
  intros w (h' & -> & Hext). split.
  - exists (h' ++ [c]). split; [done|]. by apply extends_app_r.
  - intros a [= <-]. simpl. by apply extends_length.
Qed.

Lemma triple_JSON_parse w0 j : triple w0 (JSON_parse j) (fresh_for (heap w0)).
Proof.
  intros w (h' & -> & Hext). unfold JSON_parse. cbn [heap set_heap].
  destruct (parse_appends_all j h') as (ext & v & -> & Hv). split.
  - exists (h' ++ ext). split; [done|]. by apply extends_app_r.
  - intros a [= <-]. destruct v; try done. simpl in *.
    apply extends_length in Hext. lia.
Qed.

Lemma triple_set_prop w0 d k v :
  fresh_for (heap w0) d → triple w0 (set_prop d k v) (λ _, True).
Proof.
  intros Hd w (h' & -> & Hext).
  destruct d as [| | | |l]; try (split; [by exists h'|done]).
  unfold set_prop, bind, get_world, modify. cbn [heap set_heap].
  destruct (h' !! l) as [[ps|]|]; try (split; [by exists h'|done]).
  split; [|done]. eexists. split; [done|]. by apply extends_insert.
Qed.

(** Whatever the inputs and however the merge ends, it changes nothing
    but the store, and in the store it changes no cell that was there
    before the call; what it returns for two or more results is a
    primitive or a reference allocated by the call. *)
Lemma merge_keeps w0 rs :
  triple w0 (mergeExtractedData rs)
    (λ v, match rs with _ :: _ :: _ => fresh_for (heap w0) v | _ => True end).
Proof.
  destruct rs as [|r0 [|r1 rest]]; [by apply triple_ret..|].
  unfold mergeExtractedData.
  eapply triple_bind; [apply triple_reads, reads_JSON_stringify|]. intros text _.
  eapply triple_bind; [apply triple_JSON_parse|]. intros merged Hmerged.
  eapply triple_bind; [apply triple_reads, reads_flatMap_field|]. intros items _.
  eapply triple_bind; [apply triple_alloc|]. intros a _.
  eapply triple_bind; [by apply triple_set_prop|]. intros _ _.
  eapply triple_bind.
  { apply triple_reads, reads_reduce. intros sum d.
    apply reads_bind; [apply reads_get_prop|]. intros c.
    apply reads_bind; [apply reads_get_prop_opt|]. intros o. apply reads_add_or_zero. }
  intros sum _.
  eapply triple_bind; [apply triple_reads, reads_get_prop|]. intros li _.
  eapply triple_bind; [apply triple_reads, reads_array_length|]. intros n _.
  eapply triple_bind; [apply triple_alloc|]. intros c _.
  eapply triple_bind; [by apply triple_set_prop|]. intros _ _.
  eapply triple_bind; [apply triple_reads, reads_flatMap_field|]. intros missing _.
  eapply triple_bind; [apply triple_alloc|]. intros u _.
  eapply triple_bind; [by apply triple_set_prop|]. intros _ _.
  by apply triple_ret.
Qed.

(** Against C5 as the specification words it: the merge does not
    return an independent copy.  For a single result the returned value
    is the input reference itself: it is no new reference, and a write
    through it is a write to the input.  For two results the merged
    line_items array holds the very line-item objects of the inputs. *)
Lemma merge_copy_counterexample :
  let h := [CObj [("invoice_number", VStr "A1")]] in
  let w := World h ∅ [] [] [] in
  let h2 := [CObj [("description", VStr "bolt")];
             CArr [VRef 0];
             CObj [("line_items", VRef 1)];
             CObj [("line_items", VNull)]] in
  let out2 := mergeExtractedData [VRef 2; VRef 3] (World h2 ∅ [] [] []) in
  mergeExtractedData [VRef 0] w = (Ret (VRef 0), w)
  ∧ ¬ fresh_for h (VRef 0)
  ∧ field (heap ((v <- mergeExtractedData [VRef 0] ;;
                  set_prop v "invoice_number" (VStr "B2")) w).2)
          (VRef 0) "invoice_number" = Some (VStr "B2")
  ∧ out2.1 = Ret (VRef 6)
  ∧ line_items_of (heap out2.2) (VRef 6) = [VRef 0]
  ∧ line_items_of h2 (VRef 2) = [VRef 0].
Proof.
  intros h w h2 out2. split; [reflexivity|]. split; [simpl; lia|].
  repeat split; reflexivity.
Qed.

(** C5, as the code has it.  For a single result the merge returns that
    very result (the same reference, so the same content) and touches
    nothing.  On any input and on any exit the merge changes no cell
    that existed before the call, nor the disk, the log or the path
    lists.  For two or more well-formed results the returned object is
    newly allocated, and the elements of its line_items array are the
    inputs' own line-item values, references included. *)
Theorem merge_identity_and_frame (w : world) :
  (∀ r, mergeExtractedData [r] w = (Ret r, w))
  ∧ (∀ rs, keeps w (mergeExtractedData rs w).2)
  ∧ (∀ r0 r1 rest,
       well_formed (heap w) (r0 :: r1 :: rest) = true →
       ∃ m w', mergeExtractedData (r0 :: r1 :: rest) w = (Ret (VRef m), w')
               ∧ (length (heap w) ≤ m)%nat
               ∧ heap w !! m = None
               ∧ line_items_of (heap w') (VRef m)
                 = concat (line_items_of (heap w) <$> r0 :: r1 :: rest)).
Proof.
  split; [done|]. split.
  - intros rs. apply (merge_keeps w rs w), keeps_refl.
  - intros r0 r1 rest Hwf.
    destruct (merge_result w r0 r1 rest Hwf)
      as (m & w' & Hrun & Hm & _ & Hli & Harr & _).
    exists m, w'. split; [done|]. split; [done|]. split; [by apply lookup_ge_None|].
    unfold line_items_of at 1. rewrite Hli. simpl. by rewrite Harr.
Qed.

Lemma merge_identity_and_frame_witness :
  let h := [CObj [("description", VStr "bolt")];
            CArr [VRef 0];
            CObj [("invoice_number", VStr "A1"); ("line_items", VRef 1)];
            CObj [("invoice_number", VNull)]] in
  let w := World h ∅ [] [] [] in
  ∃ m w', mergeExtractedData [VRef 2; VRef 3] w = (Ret (VRef m), w')
          ∧ (length (heap w) ≤ m)%nat
          ∧ heap w !! m = None
          ∧ line_items_of (heap w') (VRef m)
            = concat (line_items_of (heap w) <$> [VRef 2; VRef 3]).
Proof.
  intros h w.
  apply (proj2 (proj2 (merge_identity_and_frame w)) (VRef 2) (VRef 3) []). reflexivity.
Defined.

(** ** Cleanup of the temporary page files *)

Section cleanup.
Variable E : env.

Lemma shrinks_refl w : shrinks w w.
Proof. exists (disk w). split; [by destruct w|done]. Qed.

Lemma shrinks_trans w1 w2 w3 : shrinks w1 w2 → shrinks w2 w3 → shrinks w1 w3.
Proof.
  intros (d2 & -> & H2) (d3 & -> & H3). exists d3. split; [done|].
  simpl in H3. set_solver.
Qed.

Lemma unlinkSync_shrinks p w :
  shrinks w (unlinkSync E p w).2 ∧ ∀ r, (unlinkSync E p w).1 ≠ Halt r.
Proof.
  unfold unlinkSync. destruct (unlink_fails E p); simpl.
  - split; [apply shrinks_refl|done].
  - split; [|done]. exists (disk w ∖ {[p]}). split; [done|set_solver].
Qed.

Lemma unlink_if_present_shrinks p w :
  shrinks w (unlink_if_present E p w).2 ∧ ∀ r, (unlink_if_present E p w).1 ≠ Halt r.
Proof.
  unfold unlink_if_present, bind, exists_on_disk, get_world, ret. simpl.
  destruct (bool_decide (p ∈ disk w)); [apply unlinkSync_shrinks|].
  split; [apply shrinks_refl|done].
Qed.

Lemma unlink_if_page_shrinks f w :
  shrinks w (unlink_if_page E f w).2 ∧ ∀ r, (unlink_if_page E f w).1 ≠ Halt r.
Proof.
  unfold unlink_if_page. destruct (is_page_file f); [apply unlinkSync_shrinks|].
  split; [apply shrinks_refl|done].
Qed.

Lemma for_each_shrinks {A} (body : A → M unit) (l : list A) :
  (∀ x w, shrinks w (body x w).2 ∧ ∀ r, (body x w).1 ≠ Halt r) →
  ∀ w, shrinks w (for_each body l w).2 ∧ ∀ r, (for_each body l w).1 ≠ Halt r.
Proof.
  intros Hbody. induction l as [|x l IH]; intros w; simpl.
  - split; [apply shrinks_refl|done].
  - unfold bind. destruct (Hbody x w) as [Hs Hh].
    destruct (body x w) as [[[]|e|r] w1]; simpl in *; [|done|by destruct (Hh r)].
    destruct (IH w1) as [Hs' Hh']. split; [by eapply shrinks_trans|done].
Qed.

Lemma cleanup_body_shrinks paths w :
  shrinks w (cleanup_body E paths w).2 ∧ ∀ r, (cleanup_body E paths w).1 ≠ Halt r.
Proof.
  unfold cleanup_body, bind.
  destruct (for_each_shrinks (unlink_if_present E) paths unlink_if_present_shrinks w)
    as [Hs Hh].
  destruct (for_each (unlink_if_present E) paths w) as [[[]|e|r] w1]; simpl in *;
    [|done|by destruct (Hh r)].
  destruct (for_each_shrinks (unlink_if_page E) (readdir_temp (disk w1))
              unlink_if_page_shrinks w1) as [Hs' Hh'].
  split; [by eapply shrinks_trans|done].
Qed.

(** When the deletion of no listed path fails, the first loop removes
    them all. *)
Lemma unlink_all_present paths w :
  (∀ p, p ∈ paths → unlink_fails E p = false) →
  for_each (unlink_if_present E) paths w
  = (Ret tt, set_disk (disk w ∖ list_to_set paths) w).
Proof.
  revert w. induction paths as [|p paths IH]; intros w Hok; simpl.
  - unfold ret. f_equal. destruct w; unfold set_disk; simpl. f_equal. set_solver.
  - unfold bind at 1. unfold unlink_if_present, bind, exists_on_disk, get_world, ret.
    simpl. unfold unlinkSync. rewrite (Hok p) by left.
    assert (Hok' : ∀ q, q ∈ paths → unlink_fails E q = false)
      by (intros q Hq; apply Hok; by right).
    destruct (bool_decide_reflect (p ∈ disk w)) as [Hin|Hout]; simpl.
    + rewrite IH by done. f_equal. unfold set_disk. simpl. f_equal. set_solver.
    + rewrite IH by done. f_equal. unfold set_disk. simpl. f_equal. set_solver.
Qed.

(** Then none of them is on the disk when the body ends, however the
    sweep of the temp directory goes. *)
Lemma cleanup_body_removes paths w :
  (∀ p, p ∈ paths → unlink_fails E p = false) →
  ∀ p, p ∈ paths → p ∉ disk (cleanup_body E paths w).2.
Proof.
  intros Hok p Hp. unfold cleanup_body. unfold bind at 1.
  rewrite unlink_all_present by done. unfold bind, get_world. cbn [disk set_disk].
  set (w1 := set_disk (disk w ∖ list_to_set paths) w).
  destruct (for_each_shrinks (unlink_if_page E)
              (readdir_temp (disk w ∖ list_to_set paths)) unlink_if_page_shrinks w1)
    as [(d & Hd & Hsub) _].
  rewrite Hd. simpl in *. intros Hpd. apply Hsub in Hpd. set_solver.
Qed.



(** cleanupTempImages always returns. *)
Lemma cleanupTempImages_returns paths w :
  ∃ w', cleanupTempImages E paths w = (Ret tt, w')
        ∧ heap w' = heap w
        ∧ allImagePaths w' = allImagePaths w
        ∧ allTempImagePaths w' = allTempImagePaths w
        ∧ disk w' ⊆ disk w
        ∧ EvCleanup paths ∈ log w'.
Proof.
  unfold cleanupTempImages, bind, emit, modify, try_catch.
  destruct (cleanup_body_shrinks paths (add_log (EvCleanup paths) w))
    as [(d & Hd & Hsub) Hh].
  destruct (cleanup_body E paths (add_log (EvCleanup paths) w)) as [[[]|e|r] w1];
    simpl in *; subst w1; [| |by destruct (Hh r)].
  - eexists. split; [done|]. simpl. repeat split; try done. set_solver.
  - eexists. split; [done|]. simpl. repeat split; try done. set_solver.
Qed.
End cleanup.

(** ** The request as a whole *)

Lemma cleanup_if_any_returns E w :
  ∃ w', cleanup_if_any E w = (Ret tt, w')
        ∧ heap w' = heap w
        ∧ allTempImagePaths w' = allTempImagePaths w
        ∧ disk w' ⊆ disk w
        ∧ (allTempImagePaths w ≠ [] → EvCleanup (allTempImagePaths w) ∈ log w')
        ∧ ((∀ p, p ∈ allTempImagePaths w → unlink_fails E p = false) →
           ∀ p, p ∈ allTempImagePaths w → p ∉ disk w').
Proof.
  unfold cleanup_if_any, bind, get_world.
  destruct (allTempImagePaths w) as [|p0 paths] eqn:Hpaths; simpl.
  - exists w. repeat split; try done. intros _ p Hp. by apply elem_of_nil in Hp.
  - destruct (cleanupTempImages_returns E (p0 :: paths) w)
      as (w' & Hrun & Hheap & _ & Htemps & Hdisk & Hlog).
    exists w'. split; [done|]. split; [done|]. split; [congruence|].
    split; [done|]. split; [done|]. intros Hok p Hp.
    pose proof (cleanup_body_removes E (p0 :: paths) (add_log (EvCleanup (p0 :: paths)) w)
                  Hok p Hp) as Hgone.
    unfold cleanupTempImages, bind, emit, modify, try_catch in Hrun.
    destruct (cleanup_body E (p0 :: paths) (add_log (EvCleanup (p0 :: paths)) w))
      as [[[]|e|r] w1]; by simplify_eq/=.
Qed.

(** How a request ends, from how the stages of its [try] block end. *)
Lemma request_run E fuel files batchSize documentType w :
  let stages := extract_stages E fuel files batchSize documentType (reset w) in
  let cleaned := (cleanup_if_any E stages.2).2 in
  extractDataWithOpenAI E fuel files batchSize documentType w
  = match stages.1 with
    | Ret mergedData => (Ret mergedData, cleaned)
    | Throw error => (Throw error, add_log (EvError error) cleaned)
    | Halt r => (Halt r, stages.2)
    end.
Proof.
  intros stages cleaned. unfold extractDataWithOpenAI, extract_body.
  unfold bind at 1 2. unfold modify at 1 2. unfold try_catch. unfold bind at 1.
  change (set_allTempImagePaths [] (set_allImagePaths [] w)) with (reset w).
  fold stages. subst cleaned.
  destruct stages as [[v|e|r] w2]; simpl.
  - unfold bind. destruct (cleanup_if_any_returns E w2) as (w3 & -> & _). done.
  - unfold bind. destruct (cleanup_if_any_returns E w2) as (w3 & -> & _). done.
  - done.
Qed.

(** C10.  On an empty list the merge returns null: it neither throws
    nor builds a document, and the state is untouched.  A caller that
    reaches it with no batch result, as the tail of the try block would
    with no batch, gets that null as the merged document. *)
Theorem merge_empty (E : env) (extractionPrompt : prompt) (w : world) :
  mergeExtractedData [] w = (Ret VNull, w)
  ∧ (allExtractedData <- map_m (process_batch E extractionPrompt) [] ;;
     mergedData <- mergeExtractedData allExtractedData ;;
     cleanup_if_any E ;;;
     ret mergedData) w
    = (Ret VNull, (cleanup_if_any E w).2).
Proof.
  split; [reflexivity|].
  unfold bind at 1. simpl map_m. unfold ret at 1. unfold bind at 1.
  change (mergeExtractedData [] w) with (Ret VNull, w). unfold bind.
  by destruct (cleanup_if_any_returns E w) as (w' & -> & _).
Qed.



(** ** Expansion of a PDF *)

Lemma expand_pdf_run E p w :
  isPdfFile E p = true →
  expand_file E p w
  = match failure (pdf_convert E p) with
    | Some msg => (Throw (ErrConvertFailed msg), after_convert E p w)
    | None =>
        let pages := page_listing (disk (after_convert E p w)) in
        (Ret tt, set_allTempImagePaths (allTempImagePaths w ++ pages)
                   (set_allImagePaths (allImagePaths w ++ pages) (after_convert E p w)))
    end.
Proof.
  intros Hpdf. unfold expand_file. rewrite Hpdf.
  unfold bind at 1. unfold convertPdfToImages, try_catch, bind, emit, modify.
  by destruct (failure (pdf_convert E p)).
Qed.

(** Against C4 as the specification words it: a PDF with zero pages
    does not make the expansion fail.  The rasterizer succeeds with no
    page for a.pdf, the request goes on with the image b.png alone and
    returns a merged document. *)
Lemma zero_pages_counterexample :
  let E := Env (λ p, match p with
                     | Elsewhere "uploads/a.pdf" => ".pdf"
                     | _ => ".png"
                     end)
               (λ p, match p with
                     | Elsewhere "uploads/a.pdf" => Some [0x25; 0x50; 0x44; 0x46]
                     | _ => Some [0x89; 0x50; 0x4E; 0x47]
                     end)
               (λ _, ConvertResult [] None)
               (λ _ _, ReplyText (Some (JObj [("invoice_number", JStr "A1")])))
               (λ _, false) in
  let a := Elsewhere "uploads/a.pdf" in
  let b := Elsewhere "uploads/b.png" in
  let w := World [] {[a; b]} [] [] [] in
  let final := extractDataWithOpenAI E 10 [a; b] 5 "INVOICE" w in
  isPdfFile E a = true
  ∧ failure (pdf_convert E a) = None
  ∧ page_listing (disk (after_convert E a w)) = []
  ∧ final.1 = Ret (VRef 0)
  ∧ allImagePaths final.2 = [b]
  ∧ log final.2 = [EvRasterize a; EvModelCall COMMERCIAL_INVOICE_PROMPT [b]].
Proof. intros E a b w final. repeat split; by vm_compute. Qed.

(** C4, as the code has it.  For a file classified as a PDF the
    expansion calls the rasterizer once.  When the rasterizer reports
    an error the expansion throws the conversion error, and so does a
    request that consists of this file.  When it reports none, the
    expansion returns normally and appends the page files then listed in
    the temp directory, also when there is none; a request that consists
    of this file alone and gets no page ends with 'No images to
    process'. *)
Theorem pdf_expansion (E : env) (p : fpath) (w : world) :
  isPdfFile E p = true →
  (∀ msg, failure (pdf_convert E p) = Some msg →
     expand_file E p w = (Throw (ErrConvertFailed msg), after_convert E p w)
     ∧ log (after_convert E p w) = log w ++ [EvRasterize p]
     ∧ ∀ fuel batchSize documentType,
         (extractDataWithOpenAI E fuel [p] batchSize documentType w).1
         = Throw (ErrConvertFailed msg))
  ∧ (failure (pdf_convert E p) = None →
     ∃ w', expand_file E p w = (Ret tt, w')
           ∧ log w' = log w ++ [EvRasterize p]
           ∧ allImagePaths w'
             = allImagePaths w ++ page_listing (disk (after_convert E p w))
           ∧ allTempImagePaths w'
             = allTempImagePaths w ++ page_listing (disk (after_convert E p w))
           ∧ (page_listing (disk (after_convert E p (reset w))) = [] →
              ∀ fuel batchSize documentType,
                (extractDataWithOpenAI E fuel [p] batchSize documentType w).1
                = Throw ErrNoImages)).
Proof.
  intros Hpdf. split.
  - intros msg Hmsg. split; [by rewrite expand_pdf_run, Hmsg|]. split; [done|].
    intros fuel batchSize documentType. rewrite request_run.
    unfold extract_stages. unfold bind at 1. simpl for_each. unfold bind at 1.
    rewrite expand_pdf_run, Hmsg by done. done.
  - intros Hnone. rewrite expand_pdf_run, Hnone by done.
    eexists. split; [done|]. split; [done|]. split; [done|]. split; [done|].
    intros Hzero fuel batchSize documentType. rewrite request_run.
    unfold extract_stages. unfold bind at 1. simpl for_each. unfold bind at 1.
    rewrite expand_pdf_run, Hnone by done. cbv zeta. rewrite Hzero.
    unfold ret at 1. unfold bind at 1. unfold get_world. by cbn.
Qed.

Lemma pdf_expansion_witness :
  let E := Env (λ _, ".PDF") (λ _, Some [0x25; 0x50; 0x44; 0x46; 0x2D])
               (λ _, ConvertResult ["page-1.png"] (Some "Syntax Error: broken xref"))
               (λ _ _, ReplyText None) (λ _, false) in
  let p := Elsewhere "uploads/a.PDF" in
  let w := World [] {[p]} [] [] [] in
  expand_file E p w
  = (Throw (ErrConvertFailed "Syntax Error: broken xref"), after_convert E p w)
  ∧ log (after_convert E p w) = log w ++ [EvRasterize p]
  ∧ ∀ fuel batchSize documentType,
      (extractDataWithOpenAI E fuel [p] batchSize documentType w).1
      = Throw (ErrConvertFailed "Syntax Error: broken xref").
Proof.
  intros E p w.
  apply (proj1 (pdf_expansion E p w eq_refl) "Syntax Error: broken xref" eq_refl).
Defined.

(** ** Two scenarios of the specification, run on the embedding *)

(** One PDF of three pages, batchSize = 2: three page images, two
    batches of sizes 2 and 1, two model calls, and a merged document
    whose line_items are those of both batches; the temp files are gone
    afterwards. *)
Lemma three_page_pdf_example :
  let png := [0x89; 0x50; 0x4E; 0x47] in
  let item (d : string) := JObj [("description", JStr d)] in
  let E := Env (λ p, match p with Elsewhere _ => ".pdf" | InTemp _ => ".png" end)
               (λ p, match p with
                     | Elsewhere _ => Some [0x25; 0x50; 0x44; 0x46]
                     | InTemp _ => Some png
                     end)
               (λ _, ConvertResult ["page-1.png"; "page-2.png"; "page-3.png"] None)
               (λ _ images,
                  match images with
                  | [_; _] => ReplyText (Some (JObj [("line_items",
                                                      JArr [item "bolt"; item "nut"])]))
                  | _ => ReplyText (Some (JObj [("line_items", JArr [item "washer"])]))
                  end)
               (λ _, false) in
  let pdf := Elsewhere "uploads/invoice.pdf" in
  let final := extractDataWithOpenAI E 10 [pdf] 2 "INVOICE" (World [] {[pdf]} [] [] []) in
  log final.2
  = [EvRasterize pdf;
     EvModelCall COMMERCIAL_INVOICE_PROMPT [InTemp "page-1.png"; InTemp "page-2.png"];
     EvModelCall COMMERCIAL_INVOICE_PROMPT [InTemp "page-3.png"];
     EvCleanup [InTemp "page-1.png"; InTemp "page-2.png"; InTemp "page-3.png"]]
  ∧ (∃ m, final.1 = Ret (VRef m)
          ∧ content (heap final.2) (field (heap final.2) (VRef m) "line_items")
            = Some (JArr [item "bolt"; item "nut"; item "washer"]))
  ∧ disk final.2 = {[pdf]}.
Proof.
  intros png item E pdf final. split; [by vm_compute|]. split.
  - eexists. split; by vm_compute.
  - by vm_compute.
Qed.

(** The first batch succeeds and the model call of the second fails: the
    request fails with that error, no partial document is returned, and
    the page files are deleted. *)
Lemma second_batch_fails_example :
  let E := Env (λ p, match p with Elsewhere _ => ".pdf" | InTemp _ => ".png" end)
               (λ p, match p with
                     | Elsewhere _ => Some [0x25; 0x50; 0x44; 0x46]
                     | InTemp _ => Some [0x89; 0x50; 0x4E; 0x47]
                     end)
               (λ _, ConvertResult ["page-1.png"; "page-2.png"; "page-3.png"] None)
               (λ _ images,
                  match images with
                  | [_; _] => ReplyText (Some (JObj [("line_items", JArr [])]))
                  | _ => ReplyError "429 rate limit"
                  end)
               (λ _, false) in
  let pdf := Elsewhere "uploads/invoice.pdf" in
  let final := extractDataWithOpenAI E 10 [pdf] 2 "INVOICE" (World [] {[pdf]} [] [] []) in
  final.1 = Throw (ErrProvider "429 rate limit")
  ∧ disk final.2 = {[pdf]}
  ∧ last (log final.2) = Some (EvError (ErrProvider "429 rate limit")).
Proof. intros E pdf final. repeat split; by vm_compute. Qed.

(** * Further properties of the module *)

(** ** The prompt of a document type *)





(** ** SameValueZero and the Set of missing fields *)











(** Fields that several batches report missing are listed once, in the
    order of their first appearance. *)
Lemma merged_missing_fields_example :
  let h := [CArr [VStr "consignee"; VStr "vessel"];
            CObj [("missing_fields", VRef 0)];
            CArr [VStr "vessel"; VStr "port_of_loading"; VStr "consignee"];
            CObj [("missing_fields", VRef 2)];
            CObj [("bl_number", VStr "MAEU1")]] in
  unique (concat (missing_fields_of h <$> [VRef 1; VRef 3; VRef 4]))
  = [VStr "consignee"; VStr "vessel"; VStr "port_of_loading"].
Proof. reflexivity. Qed.

(** ** The MIME type of an image *)

Lemma detect_mime_valid E imagePath imageBuffer :
  existsb (String.eqb (detect_mime E imagePath imageBuffer)) validMimeTypes = true.
Proof.
  unfold detect_mime, mime_by_extension.
  repeat match goal with |- context [if ?b then _ else _] => destruct b end; reflexivity.
Qed.



(** ** The page files of a converted PDF *)

Section sorting.
Context {A : Type} (key : A → Z).

Lemma insert_by_Permutation x l : insert_by key x l ≡ₚ x :: l.
Proof.
  induction l as [|y l IH]; simpl; [done|].
  destruct (key x <=? key y); [done|]. rewrite IH. apply perm_swap.
Qed.

Lemma sort_by_Permutation l : sort_by key l ≡ₚ l.
Proof.
  induction l as [|x l IH]; simpl; [done|].
  unfold sort_by in *. simpl. by rewrite insert_by_Permutation, IH.
Qed.

Lemma insert_by_sorted x l :
  StronglySorted (λ a b, key a ≤ key b) l →
  StronglySorted (λ a b, key a ≤ key b) (insert_by key x l).
Proof.
  induction 1 as [|y l Hs IH Hy]; simpl; [by repeat constructor|].
  destruct (Z.leb_spec (key x) (key y)) as [Hxy|Hxy].
  - constructor; [by constructor|]. constructor; [done|].
    eapply Forall_impl; [exact Hy|]. simpl. intros z Hz. lia.
  - constructor; [done|]. rewrite insert_by_Permutation. constructor; [lia|done].
Qed.

Lemma sort_by_sorted l : StronglySorted (λ a b, key a ≤ key b) (sort_by key l).
Proof.
  induction l as [|x l IH]; [constructor|]. by apply insert_by_sorted.
Qed.

Lemma sort_by_ordered l i j a b :
  (i < j)%nat → sort_by key l !! i = Some a → sort_by key l !! j = Some b →
  key a ≤ key b.
Proof.
  generalize (sort_by_sorted l). generalize (sort_by key l). clear l.
  intros s Hs. revert i j. induction Hs as [|x s Hs IH Hx]; intros i j Hij Hi Hj.
  { by rewrite lookup_nil in Hi. }
  destruct j as [|j]; [lia|]. simpl in Hj. destruct i as [|i].
  - simpl in Hi. simplify_eq. rewrite Forall_forall in Hx. apply Hx.
    by eapply list_elem_of_lookup_2.
  - simpl in Hi. apply (IH i j); [lia|done..].
Qed.
End sorting.

Lemma elem_of_readdir_temp d f : f ∈ readdir_temp d ↔ InTemp f ∈ d.
Proof.
  unfold readdir_temp. rewrite list_elem_of_omap. split.
  - intros (p & Hp & Hf). destruct p; simplify_eq. by apply elem_of_elements in Hp.
  - intros Hf. exists (InTemp f). split; [by apply elem_of_elements|done].
Qed.

Lemma NoDup_readdir_temp d : NoDup (readdir_temp d).
Proof.
  unfold readdir_temp. generalize (NoDup_elements d).
  induction 1 as [|p l Hp Hl IH]; simpl; [constructor|].
  destruct p as [f|q]; [|done]. constructor; [|done].
  rewrite list_elem_of_omap. intros (p & Hin & Hf). destruct p; by simplify_eq.
Qed.

Lemma elem_of_page_listing d p :
  p ∈ page_listing d ↔ is_temp_page p = true ∧ p ∈ d.
Proof.
  unfold page_listing. rewrite list_elem_of_fmap. split.
  - intros (f & -> & Hf). rewrite sort_by_Permutation in Hf.
    apply list_elem_of_filter in Hf as [Hpage Hf]. by apply elem_of_readdir_temp in Hf.
  - intros [Hpage Hp]. destruct p as [f|q]; [|done]. exists f. split; [done|].
    rewrite sort_by_Permutation. apply list_elem_of_filter.
    split; [done|]. by apply elem_of_readdir_temp.
Qed.

Lemma NoDup_page_listing d : NoDup (page_listing d).
Proof.
  unfold page_listing. apply NoDup_fmap_2_strong; [by intros ?? _ _ [=]|].
  rewrite sort_by_Permutation.
  apply NoDup_filter, NoDup_readdir_temp.
Qed.

Lemma page_listing_ordered d i j f g :
  (i < j)%nat →
  page_listing d !! i = Some (InTemp f) → page_listing d !! j = Some (InTemp g) →
  page_number f ≤ page_number g.
Proof.
  unfold page_listing. rewrite !list_lookup_fmap. intros Hij Hi Hj.
  apply fmap_Some in Hi as (f' & Hi & [= ->]). apply fmap_Some in Hj as (g' & Hj & [= ->]).
  by eapply (sort_by_ordered page_number).
Qed.

Lemma convert_run E pdfPath w :
  convertPdfToImages E pdfPath w
  = match failure (pdf_convert E pdfPath) with
    | Some msg => (Throw (ErrConvertFailed msg), after_convert E pdfPath w)
    | None => (Ret (page_listing (disk (after_convert E pdfPath w))),
               after_convert E pdfPath w)
    end.
Proof.
  unfold convertPdfToImages, try_catch, bind, emit, modify.
  by destruct (failure (pdf_convert E pdfPath)).
Qed.

(** X4.  When the rasterizer reports no error, convertPdfToImages
    returns, after the one rasterizer call, exactly the page files
    (page*.png) that are then in the temp directory: those the
    rasterizer wrote and those that were there before the call.  No path
    is listed twice, and the list is in the order of the page numbers. *)
Theorem converted_pages (E : env) (pdfPath : fpath) (w : world) :
  failure (pdf_convert E pdfPath) = None →
  ∃ pages,
    convertPdfToImages E pdfPath w = (Ret pages, after_convert E pdfPath w)
    ∧ (∀ p, p ∈ pages ↔
            is_temp_page p = true
            ∧ (p ∈ disk w ∨ ∃ f, p = InTemp f ∧ f ∈ written (pdf_convert E pdfPath)))
    ∧ NoDup pages
    ∧ (∀ i j f g, (i < j)%nat →
                  pages !! i = Some (InTemp f) → pages !! j = Some (InTemp g) →
                  page_number f ≤ page_number g).
Proof.
  intros Hok. rewrite convert_run, Hok. eexists. split; [done|].
  split; [|split; [apply NoDup_page_listing|apply page_listing_ordered]].
  intros p. rewrite elem_of_page_listing. unfold after_convert. cbn [disk set_disk add_log].
  rewrite elem_of_union, elem_of_list_to_set, list_elem_of_fmap.
  split; intros [Hpage [Hp|(f & -> & Hf)]]; (split; [done|]); eauto.
Qed.

Lemma converted_pages_witness :
  let E := Env (λ _, ".pdf") (λ _, Some [0x25; 0x50; 0x44; 0x46])
               (λ _, ConvertResult ["page-10.png"; "page-2.png"] None)
               (λ _ _, ReplyText None) (λ _, false) in
  let w := World [] {[InTemp "page-3.png"; InTemp "notes.txt"]} [] [] [] in
  ∃ pages,
    convertPdfToImages E (Elsewhere "uploads/a.pdf") w
    = (Ret pages, after_convert E (Elsewhere "uploads/a.pdf") w)
    ∧ (∀ p, p ∈ pages ↔
            is_temp_page p = true
            ∧ (p ∈ disk w
               ∨ ∃ f, p = InTemp f
                      ∧ f ∈ written (pdf_convert E (Elsewhere "uploads/a.pdf"))))
    ∧ NoDup pages
    ∧ (∀ i j f g, (i < j)%nat →
                  pages !! i = Some (InTemp f) → pages !! j = Some (InTemp g) →
                  page_number f ≤ page_number g).
Proof. intros E w. apply (converted_pages E (Elsewhere "uploads/a.pdf") w). reflexivity. Defined.

(** Pages are ordered by number, not by name, and a page file that was
    in the temp directory before the conversion is listed with the new
    ones. *)
Lemma converted_pages_example :
  let E := Env (λ _, ".pdf") (λ _, Some [0x25; 0x50; 0x44; 0x46])
               (λ _, ConvertResult ["page-10.png"; "page-2.png"] None)
               (λ _ _, ReplyText None) (λ _, false) in
  let w := World [] {[InTemp "page-3.png"; InTemp "notes.txt"]} [] [] [] in
  (convertPdfToImages E (Elsewhere "uploads/a.pdf") w).1
  = Ret [InTemp "page-2.png"; InTemp "page-3.png"; InTemp "page-10.png"].
Proof. by vm_compute. Qed.

(** ** The batch stage *)

Lemma imageToBase64_run E p w :
  imageToBase64 E p w
  = if bool_decide (p ∈ disk w) then
      match file_bytes E p with
      | Some imageBuffer => (Ret (detect_mime E p imageBuffer, imageBuffer), w)
      | None => (Throw (ErrRead p), w)
      end
    else (Throw (ErrImageNotFound p), w).
Proof.
  unfold imageToBase64, bind, exists_on_disk, get_world, ret. simpl.
  destruct (bool_decide (p ∈ disk w)); simpl; [|done]. by destruct (file_bytes E p).
Qed.

(** The check of the MIME type after imageToBase64 never fires. *)
Lemma checked_image_run E p w :
  (r <- imageToBase64 E p ;;
   if negb (existsb (String.eqb r.1) validMimeTypes)
   then throw (ErrInvalidMime r.1) else ret r) w
  = imageToBase64 E p w.
Proof.
  unfold bind. rewrite imageToBase64_run.
  destruct (bool_decide (p ∈ disk w)); [|done].
  destruct (file_bytes E p) as [buf|]; [|done].
  cbn [fst]. by rewrite detect_mime_valid.
Qed.

Lemma read_images_run E (batch : list fpath) w o w1 :
  map_m (λ imagePath,
           r <- imageToBase64 E imagePath ;;
           if negb (existsb (String.eqb r.1) validMimeTypes)
           then throw (ErrInvalidMime r.1)
           else ret r) batch w = (o, w1) →
  w1 = w
  ∧ match o with
    | Ret imageContents =>
        Forall2 (λ p c, p ∈ disk w ∧ image_content E p = Some c) batch imageContents
    | Throw e =>
        ∃ p, p ∈ batch
             ∧ (e = ErrImageNotFound p ∧ p ∉ disk w ∨ e = ErrRead p ∧ file_bytes E p = None)
    | Halt _ => False
    end.
Proof.
  revert o w1. induction batch as [|p batch IH]; intros o w1 Hrun.
  { cbn [map_m] in Hrun. unfold ret in Hrun. simplify_eq. split; [done|constructor]. }
  cbn [map_m] in Hrun. unfold bind at 1 in Hrun.
  rewrite checked_image_run, imageToBase64_run in Hrun.
  destruct (bool_decide_reflect (p ∈ disk w)) as [Hin|Hout].
  - destruct (file_bytes E p) as [buf|] eqn:Hbuf.
    + unfold bind at 1 in Hrun.
      destruct (map_m _ batch w) as [[cs|e|r] w2] eqn:Hrest;
        destruct (IH _ _ eq_refl) as [-> Hcs]; unfold ret in Hrun; simplify_eq.
      * split; [done|]. constructor; [|done]. split; [done|].
        unfold image_content. by rewrite Hbuf.
      * split; [done|]. destruct Hcs as (q & Hq & He). exists q. split; [by right|done].
      * done.
    + simplify_eq. split; [done|]. exists p. split; [by left|]. by right.
  - simplify_eq. split; [done|]. exists p. split; [by left|]. by left.
Qed.

Lemma process_batch_run E extractionPrompt batch w o w1 :
  process_batch E extractionPrompt batch w = (o, w1) →
  same_files w w1
  ∧ match o with
    | Ret v =>
        log w1 = log w ++ [EvModelCall extractionPrompt batch]
        ∧ ∃ imageContents outputText,
            Forall2 (λ p c, p ∈ disk w ∧ image_content E p = Some c) batch imageContents
            ∧ model_reply E extractionPrompt imageContents = ReplyText (Some outputText)
            ∧ parse outputText (heap w) = (heap w1, v)
    | Throw e =>
        heap w1 = heap w
        ∧ batch_error E (disk w) [batch] e
        ∧ (log w1 = log w ∨ log w1 = log w ++ [EvModelCall extractionPrompt batch])
    | Halt _ => False
    end.
Proof.
  unfold process_batch. unfold bind at 1. intros Hrun.
  destruct (map_m _ batch w) as [[cs|e|r] w2] eqn:Himages;
    destruct (read_images_run _ _ _ _ _ Himages) as [-> Hr].
  - unfold bind, emit, modify in Hrun.
    destruct (model_reply E extractionPrompt cs) as [msg|[text|]] eqn:Hreply.
    + unfold throw in Hrun. simplify_eq. split; [done|]. split; [done|]. split; [|by right].
      right. right. by exists msg.
    + unfold JSON_parse in Hrun. cbn [heap add_log] in Hrun.
      destruct (parse text (heap w)) as [h' v] eqn:Hparse. simplify_eq.
      split; [done|]. split; [done|]. by exists cs, text.
    + unfold throw in Hrun. simplify_eq. split; [done|]. split; [done|]. split; [|by right].
      right. by left.
  - simplify_eq. split; [done|]. split; [done|]. split; [|by left]. left.
    destruct Hr as (p & Hp & He). exists batch, p. split; [by left|done].
  - done.
Qed.

(** X5.  When an image of a batch is missing or unreadable, the batch
    fails before the model is called: the error is that of an image of
    the batch, and the state is unchanged. *)
Theorem unreadable_image_stops_batch (E : env) (extractionPrompt : prompt)
    (batch : list fpath) (p : fpath) (w : world) :
  p ∈ batch → p ∉ disk w ∨ file_bytes E p = None →
  ∃ e q, process_batch E extractionPrompt batch w = (Throw e, w)
         ∧ q ∈ batch
         ∧ (e = ErrImageNotFound q ∧ q ∉ disk w ∨ e = ErrRead q ∧ file_bytes E q = None).
Proof.
  intros Hp Hbad. unfold process_batch. unfold bind at 1.
  destruct (map_m _ batch w) as [[cs|e|r] w1] eqn:Himages;
    destruct (read_images_run _ _ _ _ _ Himages) as [-> Hr];
    [|by destruct Hr as (q & Hq & He); exists e, q|done].
  exfalso. apply list_elem_of_lookup in Hp as [i Hi].
  destruct (Forall2_lookup_l _ _ _ _ _ Hr Hi) as (c & _ & Hin & Hc).
  destruct Hbad as [?|Hnone]; [done|]. unfold image_content in Hc. by rewrite Hnone in Hc.
Qed.

Lemma unreadable_image_stops_batch_witness :
  let E := Env (λ _, ".png") (λ _, Some [0x89; 0x50; 0x4E; 0x47])
               (λ _, ConvertResult [] None)
               (λ _ _, ReplyText None) (λ _, false) in
  let a := Elsewhere "uploads/a.png" in
  let b := Elsewhere "uploads/b.png" in
  let w := World [] {[a]} [] [] [] in
  ∃ e q, process_batch E MBL_PROMPT [a; b] w = (Throw e, w)
         ∧ q ∈ [a; b]
         ∧ (e = ErrImageNotFound q ∧ q ∉ disk w ∨ e = ErrRead q ∧ file_bytes E q = None).
Proof.
  intros E a b w. apply (unreadable_image_stops_batch E MBL_PROMPT [a; b] b w).
  - right. left.
  - left. by vm_compute.
Defined.

Lemma same_files_refl w : same_files w w.
Proof. done. Qed.

Lemma same_files_trans w1 w2 w3 : same_files w1 w2 → same_files w2 w3 → same_files w1 w3.
Proof. intros (? & ? & ?) (? & ? & ?). repeat split; congruence. Qed.

Lemma process_batch_extends E extractionPrompt batch w o w1 :
  process_batch E extractionPrompt batch w = (o, w1) → extends (heap w) (heap w1).
Proof.
  intros Hrun. destruct (process_batch_run _ _ _ _ _ _ Hrun) as [_ Ho].
  destruct o as [v|e|r]; [|by destruct Ho as [-> _]; apply extends_refl|done].
  destruct Ho as (_ & cs & text & _ & _ & Hparse).
  destruct (parse_appends_all text (heap w)) as (ext & v' & Hp & _).
  rewrite Hp in Hparse. injection Hparse as <- _. apply extends_app.
Qed.

(** The loop over the batches: the calls that were made are those of
    the first [k] batches, in order; the loop stops at the first batch
    that fails. *)
Lemma process_batches_run E extractionPrompt batches w o w1 :
  map_m (process_batch E extractionPrompt) batches w = (o, w1) →
  same_files w w1
  ∧ extends (heap w) (heap w1)
  ∧ ∃ k, log w1 = log w ++ (EvModelCall extractionPrompt <$> take k batches)
         ∧ match o with
           | Ret allExtractedData =>
               k = length batches ∧ length allExtractedData = length batches
           | Throw e =>
               ∃ j b, batches !! j = Some b
                      ∧ batch_error E (disk w) [b] e
                      ∧ (k = j ∨ k = S j)
           | Halt _ => False
           end.
Proof.
  revert w o w1. induction batches as [|b batches IH]; intros w o w1 Hrun.
  { cbn [map_m] in Hrun. unfold ret in Hrun. simplify_eq.
    split; [done|]. split; [apply extends_refl|]. exists 0%nat.
    split; [by rewrite app_nil_r|done]. }
  cbn [map_m] in Hrun. unfold bind at 1 in Hrun.
  destruct (process_batch E extractionPrompt b w) as [[v|e|r] w2] eqn:Hb;
    pose proof (process_batch_extends _ _ _ _ _ _ Hb) as Hext;
    destruct (process_batch_run _ _ _ _ _ _ Hb) as [Hsame Ho].
  - destruct Ho as [Hlog _]. unfold bind at 1 in Hrun.
    destruct (map_m _ batches w2) as [[vs|e|r] w3] eqn:Hrest;
      destruct (IH _ _ _ Hrest) as (Hsame' & Hext' & k & Hlog' & Hk);
      unfold ret in Hrun; simplify_eq.
    + split; [by eapply same_files_trans|]. split; [by eapply extends_trans|].
      exists (S k). split; [by rewrite Hlog', Hlog, <- app_assoc|].
      destruct Hk as [-> Hlen]. split; [done|]. simpl. by rewrite Hlen.
    + split; [by eapply same_files_trans|]. split; [by eapply extends_trans|].
      exists (S k). split; [by rewrite Hlog', Hlog, <- app_assoc|].
      destruct Hk as (j & b' & Hj & He & Hkj). exists (S j), b'. split; [done|].
      destruct Hsame as [<- _]. split; [done|]. lia.
    + done.
  - simplify_eq. destruct Ho as (_ & He & Hlog). split; [done|]. split; [done|].
    destruct Hlog as [Hlog|Hlog].
    + exists 0%nat. split; [by rewrite Hlog, app_nil_r|]. exists 0%nat, b. auto.
    + exists 1%nat. split; [by rewrite Hlog; destruct batches|].
      exists 0%nat, b. auto.
  - done.
Qed.

(** ** The expansion stage *)

Lemma expand_image_run E p w :
  isPdfFile E p = false →
  expand_file E p w = (Ret tt, set_allImagePaths (allImagePaths w ++ [p]) w).
Proof. intros Hp. unfold expand_file. by rewrite Hp. Qed.

(** A request for image files: the files are the pages, in order, and
    nothing else changes. *)
Lemma expand_images_run E files w :
  (∀ p, p ∈ files → isPdfFile E p = false) →
  for_each (expand_file E) files w
  = (Ret tt, set_allImagePaths (allImagePaths w ++ files) w).
Proof.
  revert w. induction files as [|p files IH]; intros w Himg.
  - cbn. rewrite app_nil_r. by destruct w.
  - cbn [for_each]. unfold bind at 1. rewrite expand_image_run by (apply Himg; left).
    rewrite IH by (intros q Hq; apply Himg; by right).
    f_equal. unfold set_allImagePaths. cbn. by rewrite <- app_assoc.
Qed.

Lemma expansion_run E files w o w1 :
  for_each (expand_file E) files w = (o, w1) →
  heap w1 = heap w
  ∧ disk w ⊆ disk w1
  ∧ (∀ q, Elsewhere q ∈ disk w1 → Elsewhere q ∈ disk w)
  ∧ (∃ temps, allTempImagePaths w1 = allTempImagePaths w ++ temps
              ∧ ∀ p, p ∈ temps → is_temp_page p = true ∧ p ∈ disk w1)
  ∧ (∃ pages, allImagePaths w1 = allImagePaths w ++ pages
              ∧ ∀ p, p ∈ pages →
                     is_temp_page p = true ∧ p ∈ disk w1
                     ∨ p ∈ files ∧ isPdfFile E p = false)
  ∧ (∃ evs, log w1 = log w ++ evs
            ∧ ∀ e, e ∈ evs → ∃ p, e = EvRasterize p ∧ p ∈ files ∧ isPdfFile E p = true)
  ∧ match o with
    | Ret _ => True
    | Throw e => ∃ p msg, e = ErrConvertFailed msg ∧ p ∈ files
                          ∧ failure (pdf_convert E p) = Some msg
    | Halt _ => False
    end.
Proof.
  revert w o w1. induction files as [|x files IH]; intros w o w1 Hrun.
  { cbn [for_each] in Hrun. unfold ret in Hrun. simplify_eq.
    split; [done|]. split; [done|]. split; [done|].
    split; [exists []; split; [by rewrite app_nil_r|by intros ? ?%elem_of_nil]|].
    split; [exists []; split; [by rewrite app_nil_r|by intros ? ?%elem_of_nil]|].
    split; [exists []; split; [by rewrite app_nil_r|by intros ? ?%elem_of_nil]|done]. }
  cbn [for_each] in Hrun. unfold bind at 1 in Hrun.
  destruct (isPdfFile E x) eqn:Hpdf.
  - rewrite expand_pdf_run in Hrun by done.
    destruct (failure (pdf_convert E x)) as [msg|] eqn:Hfail.
    + simplify_eq. unfold after_convert. cbn.
      split; [done|]. split; [set_solver|]. split; [set_solver|].
      split; [exists []; split; [by rewrite app_nil_r|by intros ? ?%elem_of_nil]|].
      split; [exists []; split; [by rewrite app_nil_r|by intros ? ?%elem_of_nil]|].
      split.
      * exists [EvRasterize x]. split; [done|]. intros e ->%list_elem_of_singleton.
        exists x. split; [done|]. split; [by left|done].
      * exists x, msg. split; [done|]. split; [by left|done].
    + cbv zeta in Hrun.
      set (pages := page_listing (disk (after_convert E x w))) in *.
      destruct (IH _ _ _ Hrun)
        as (Hheap & Hdisk & Helse & (temps & Htemps & Htp) & (ps & Hps & Hpp)
            & (evs & Hevs & Hev) & Ho).
      cbn in Hheap, Hdisk, Helse, Htemps, Hps, Hevs.
      assert (Hpages : ∀ p, p ∈ pages → is_temp_page p = true ∧ p ∈ disk w1).
      { intros p Hp. apply elem_of_page_listing in Hp as [Hpage Hp]. split; [done|].
        apply Hdisk. exact Hp. }
      split; [done|]. split; [set_solver|].
      split; [intros q Hq; apply Helse in Hq; set_solver|].
      split.
      { exists (pages ++ temps). split; [by rewrite Htemps, <- app_assoc|].
        intros p [Hp|Hp]%elem_of_app; auto. }
      split.
      { exists (pages ++ ps). split; [by rewrite Hps, <- app_assoc|].
        intros p [Hp|Hp]%elem_of_app; [left; auto|].
        destruct (Hpp p Hp) as [?|[? ?]]; [by left|]. right. split; [by right|done]. }
      split.
      { exists (EvRasterize x :: evs). split; [by rewrite Hevs, <- app_assoc|].
        intros e [->|He]%elem_of_cons.
        - exists x. split; [done|]. split; [by left|done].
        - destruct (Hev e He) as (p & -> & Hp & Hpp'). exists p.
          split; [done|]. split; [by right|done]. }
      destruct o as [u|e|r]; [done| |done].
      destruct Ho as (p & msg & -> & Hp & Hmsg). exists p, msg.
      split; [done|]. split; [by right|done].
  - rewrite expand_image_run in Hrun by done.
    destruct (IH _ _ _ Hrun)
      as (Hheap & Hdisk & Helse & (temps & Htemps & Htp) & (ps & Hps & Hpp)
          & (evs & Hevs & Hev) & Ho).
    cbn in Hheap, Hdisk, Helse, Htemps, Hps, Hevs.
    split; [done|]. split; [done|]. split; [done|].
    split; [by exists temps|].
    split.
    { exists (x :: ps). split; [by rewrite Hps, <- app_assoc|].
      intros p [->|Hp]%elem_of_cons; [right; split; [by left|done]|].
      destruct (Hpp p Hp) as [?|[? ?]]; [by left|]. right. split; [by right|done]. }
    split.
    { exists evs. split; [done|]. intros e He.
      destruct (Hev e He) as (p & -> & Hp & Hpp'). exists p.
      split; [done|]. split; [by right|done]. }
    destruct o as [u|e|r]; [done| |done].
    destruct Ho as (p & msg & -> & Hp & Hmsg). exists p, msg.
    split; [done|]. split; [by right|done].
Qed.

(** ** The merge stage *)

Lemma merge_footprint rs w :
  ∃ h', (mergeExtractedData rs w).2 = set_heap h' w ∧ extends (heap w) h'.
Proof. destruct (merge_keeps w rs w (keeps_refl w)) as [Hkeep _]. exact Hkeep. Qed.

Lemma throws_only_bind {A B} (c : M A) (k : A → M B) P :
  throws_only c P → (∀ a, throws_only (k a) P) → throws_only (bind c k) P.
Proof.
  intros Hc Hk w e. unfold bind. specialize (Hc w).
  destruct (c w) as [[a|e'|r] w']; simpl in *; [apply Hk| |done].
  intros [= <-]. by apply Hc.
Qed.

Lemma throws_only_ret {A} (a : A) P : throws_only (ret a) P.
Proof. by intros w e. Qed.

Lemma throws_only_map_m {A B} (f : A → M B) l P :
  (∀ x, throws_only (f x) P) → throws_only (map_m f l) P.
Proof.
  intros Hf. induction l as [|x l IH]; [apply throws_only_ret|].
  cbn [map_m]. apply throws_only_bind; [done|]. intros y.
  apply throws_only_bind; [done|]. intros ys. apply throws_only_ret.
Qed.

Lemma throws_only_reduce {A B} (f : B → A → M B) l init P :
  (∀ b x, throws_only (f b x) P) → throws_only (reduce f init l) P.
Proof.
  intros Hf. revert init. induction l as [|x l IH]; intros init; [apply throws_only_ret|].
  cbn [reduce]. apply throws_only_bind; [done|]. intros acc. apply IH.
Qed.

Ltac prim_throws :=
  intros w e;
  unfold get_prop_opt, get_prop, set_prop, array_length, or_empty_flat, add_or_zero,
    JSON_stringify, JSON_parse, alloc, bind, get_world, modify, ret, throw, stop;
  repeat case_match; simpl; intros ?; simplify_eq; auto.

Lemma merge_throws rs :
  throws_only (mergeExtractedData rs) (λ e, e = ErrType ∨ e = ErrCircular).
Proof.
  destruct rs as [|r0 [|r1 rest]]; [apply throws_only_ret..|].
  unfold mergeExtractedData, flatMap_field.
  repeat first
    [ apply throws_only_ret
    | apply throws_only_bind; [|intros ?]
    | apply throws_only_map_m; intros ?
    | apply throws_only_reduce; intros ? ? ]; prim_throws.
Qed.

(** ** The batching loop, for any step *)

Lemma slice_subseteq {A} (l : list A) (i j : Z) : slice l i j ⊆ l.
Proof. unfold slice. etrans; [apply subseteq_take|apply subseteq_drop]. Qed.

Lemma batch_loop_subseteq {A} fuel (P : list A) B i acc batches :
  batch_loop fuel P B i acc = Some batches →
  (∀ b, b ∈ acc → b ⊆ P) → ∀ b, b ∈ batches → b ⊆ P.
Proof.
  revert i acc. induction fuel as [|fuel IH]; intros i acc Hrun Hacc; [done|].
  simpl in Hrun. destruct (i <? Z.of_nat (length P)).
  - eapply IH; [exact Hrun|]. intros b [Hb| ->%list_elem_of_singleton]%elem_of_app; [auto|].
    apply slice_subseteq.
  - by simplify_eq.
Qed.

(** ** The stages of a request *)

Lemma stages_run E fuel files batchSize documentType w :
  let expanded := for_each (expand_file E) files w in
  let pages := allImagePaths expanded.2 in
  extract_stages E fuel files batchSize documentType w
  = match expanded.1 with
    | Ret _ =>
        if Z.of_nat (length pages) =? 0 then (Throw ErrNoImages, expanded.2)
        else
          match batch_loop fuel pages batchSize 0 [] with
          | None => (Halt OutOfFuel, expanded.2)
          | Some batches =>
              let results := map_m (process_batch E (getPromptForDocumentType documentType))
                               batches expanded.2 in
              match results.1 with
              | Ret allExtractedData => mergeExtractedData allExtractedData results.2
              | Throw e => (Throw e, results.2)
              | Halt r => (Halt r, results.2)
              end
          end
    | Throw e => (Throw e, expanded.2)
    | Halt r => (Halt r, expanded.2)
    end.
Proof.
  intros expanded pages. subst pages expanded. unfold extract_stages. unfold bind at 1.
  destruct (for_each (expand_file E) files w) as [[u|e|r] w1]; [|done..].
  unfold bind at 1. unfold get_world. cbn [fst snd].
  destruct (Z.of_nat (length (allImagePaths w1)) =? 0); [done|].
  unfold make_batches. unfold bind at 1.
  destruct (batch_loop fuel (allImagePaths w1) batchSize 0 []) as [batches|]; [|done].
  unfold ret at 1. unfold bind.
  by destruct (map_m _ batches w1) as [[vs|e|r] w2].
Qed.

(** ** What the cleanup removes *)

Lemma removes_refl S w : removes S w w.
Proof. exists (disk w). split; [by destruct w|]. split; [done|]. by intros p ? ?. Qed.

Lemma removes_trans S w1 w2 w3 : removes S w1 w2 → removes S w2 w3 → removes S w1 w3.
Proof.
  intros (d2 & -> & Hsub2 & H2) (d3 & -> & Hsub3 & H3). cbn in Hsub3, H3.
  exists d3. split; [done|]. split; [set_solver|]. intros p Hp Hp3.
  destruct (decide (p ∈ d2)); auto.
Qed.

Lemma unlinkSync_removes E (S : fpath → Prop) p w :
  S p → removes S w (unlinkSync E p w).2.
Proof.
  intros HS. unfold unlinkSync. destruct (unlink_fails E p); [apply removes_refl|].
  exists (disk w ∖ {[p]}). split; [done|]. split; [set_solver|].
  intros q Hq Hq'. destruct (decide (q = p)) as [->|]; [done|]. set_solver.
Qed.

Lemma for_each_removes {A} (body : A → M unit) (l : list A) S :
  (∀ x w, x ∈ l → removes S w (body x w).2) →
  ∀ w, removes S w (for_each body l w).2.
Proof.
  induction l as [|x l IH]; intros Hbody w; [apply removes_refl|].
  cbn [for_each]. unfold bind.
  pose proof (Hbody x w ltac:(by left)) as Hx.
  destruct (body x w) as [[[]|e|r] w1]; [|done..]. cbn in Hx.
  eapply removes_trans; [exact Hx|]. apply IH. intros y w' Hy. apply Hbody. by right.
Qed.

Lemma cleanup_body_scope E paths w :
  removes (λ p, p ∈ paths ∨ is_temp_page p = true) w (cleanup_body E paths w).2.
Proof.
  unfold cleanup_body. unfold bind at 1.
  pose proof (for_each_removes (unlink_if_present E) paths
                (λ p, p ∈ paths ∨ is_temp_page p = true)) as H1.
  specialize (H1 ltac:(intros x w' Hx; unfold unlink_if_present, bind, exists_on_disk,
                         get_world, ret; cbn;
                       destruct (bool_decide (x ∈ disk w'));
                         [apply unlinkSync_removes; by left|apply removes_refl]) w).
  destruct (for_each (unlink_if_present E) paths w) as [[[]|e|r] w1]; [|done..].
  cbn in H1. eapply removes_trans; [exact H1|]. unfold bind, get_world. cbn [fst snd].
  apply for_each_removes. intros f w' _. unfold unlink_if_page.
  destruct (is_page_file f) eqn:Hf; [|apply removes_refl].
  apply unlinkSync_removes. by right.
Qed.

(** Without deletion failures the sweep of the temp directory removes
    the page files among the names it is given. *)
Lemma sweep_run E (names : list string) w :
  (∀ p, unlink_fails E p = false) →
  for_each (unlink_if_page E) names w
  = (Ret tt, set_disk (disk w ∖ list_to_set (InTemp <$> filter (λ f, is_page_file f = true)
                                                          names)) w).
Proof.
  intros Hok. revert w. induction names as [|f names IH]; intros w.
  - cbn. unfold ret. f_equal. destruct w; unfold set_disk; cbn. f_equal. set_solver.
  - cbn [for_each]. unfold bind at 1. unfold unlink_if_page, unlinkSync.
    rewrite filter_cons. destruct (decide (is_page_file f = true)) as [Hf|Hf].
    + rewrite Hf, Hok. unfold modify. rewrite IH. f_equal.
      unfold set_disk. cbn. f_equal. set_solver.
    + apply not_true_is_false in Hf. rewrite Hf. unfold ret at 1. by rewrite IH.
Qed.

Lemma cleanup_body_exact E paths w :
  (∀ p, unlink_fails E p = false) →
  ∃ d, cleanup_body E paths w = (Ret tt, set_disk d w)
       ∧ ∀ p, p ∈ d ↔ p ∈ disk w ∧ (p ∉ paths) ∧ is_temp_page p = false.
Proof.
  intros Hok. unfold cleanup_body. unfold bind at 1.
  rewrite unlink_all_present by auto. unfold bind, get_world. cbn [fst snd disk set_disk].
  rewrite sweep_run by done. eexists. split; [done|]. intros p. cbn [disk set_disk].
  rewrite !elem_of_difference, !elem_of_list_to_set, list_elem_of_fmap.
  split.
  - intros [[Hp Hpaths] Hpage]. split; [done|]. split; [done|].
    destruct p as [f|q]; [|done]. simpl. apply not_true_is_false. intros Hf.
    apply Hpage. exists f. split; [done|]. apply list_elem_of_filter. split; [done|].
    apply elem_of_readdir_temp. set_solver.
  - intros (Hp & Hpaths & Hpage). split; [set_solver|].
    intros (f & -> & Hf). apply list_elem_of_filter in Hf as [Hf _]. simpl in Hpage.
    congruence.
Qed.

Lemma cleanup_run E paths w :
  ∃ w', cleanupTempImages E paths w = (Ret tt, w')
        ∧ heap w' = heap w
        ∧ allImagePaths w' = allImagePaths w
        ∧ allTempImagePaths w' = allTempImagePaths w
        ∧ disk w' ⊆ disk w
        ∧ (∀ p, p ∈ disk w → p ∉ disk w' → p ∈ paths ∨ is_temp_page p = true)
        ∧ (∃ warns, log w' = log w ++ EvCleanup paths :: warns
                    ∧ ∀ e, e ∈ warns → ∃ err, e = EvWarn err).
Proof.
  unfold cleanupTempImages, bind, emit, modify, try_catch.
  destruct (cleanup_body_scope E paths (add_log (EvCleanup paths) w))
    as (d & Hd & Hsub & Honly).
  destruct (cleanup_body_shrinks E paths (add_log (EvCleanup paths) w)) as [_ Hh].
  destruct (cleanup_body E paths (add_log (EvCleanup paths) w)) as [[[]|e|r] w1];
    cbn in *; subst w1; [| |by destruct (Hh r)].
  - eexists. split; [done|]. cbn. repeat split; try done.
    exists []. split; [done|]. by intros ? ?%elem_of_nil.
  - eexists. split; [done|]. cbn. repeat split; try done.
    exists [EvWarn e]. split; [by rewrite <- app_assoc|].
    intros ? ->%list_elem_of_singleton. by exists e.
Qed.

Lemma cleanup_if_any_run E w :
  ∃ w', cleanup_if_any E w = (Ret tt, w')
        ∧ heap w' = heap w
        ∧ allImagePaths w' = allImagePaths w
        ∧ allTempImagePaths w' = allTempImagePaths w
        ∧ disk w' ⊆ disk w
        ∧ (∀ p, p ∈ disk w → p ∉ disk w' →
                p ∈ allTempImagePaths w ∨ is_temp_page p = true)
        ∧ (allTempImagePaths w = [] → w' = w)
        ∧ (∃ evs, log w' = log w ++ evs
                  ∧ ∀ e, e ∈ evs → e = EvCleanup (allTempImagePaths w) ∨ ∃ err, e = EvWarn err).
Proof.
  unfold cleanup_if_any, bind, get_world. cbn [fst snd].
  destruct (allTempImagePaths w) as [|p0 paths] eqn:Hpaths.
  - exists w. cbn. repeat split; try done.
    exists []. split; [by rewrite app_nil_r|]. by intros ? ?%elem_of_nil.
  - cbn [length]. destruct (Z.ltb_spec 0 (Z.of_nat (S (length paths)))); [|lia].
    destruct (cleanup_run E (p0 :: paths) w)
      as (w' & Hrun & Hheap & Himgs & Htemps & Hdisk & Honly & warns & Hlog & Hwarns).
    exists w'. split; [done|]. split; [done|]. split; [done|]. split; [congruence|].
    split; [done|]. split; [done|]. split; [done|].
    exists (EvCleanup (p0 :: paths) :: warns). split; [done|].
    intros e [->|He]%elem_of_cons; [by left|]. right. auto.
Qed.

(** X6.  cleanupTempImages returns, and it only removes files: a file
    that is neither listed nor a page file of the temp directory is
    still there afterwards, whichever deletions fail.  When no deletion
    fails, what is left is exactly the files that were neither listed
    nor page files of the temp directory: the sweep also removes page
    files that were not listed. *)
Theorem cleanup_scope (E : env) (imagePaths : list fpath) (w : world) :
  ∃ w', cleanupTempImages E imagePaths w = (Ret tt, w')
        ∧ disk w' ⊆ disk w
        ∧ (∀ p, p ∈ disk w → p ∉ imagePaths → is_temp_page p = false → p ∈ disk w')
        ∧ ((∀ p, unlink_fails E p = false) →
           ∀ p, p ∈ disk w' ↔ p ∈ disk w ∧ (p ∉ imagePaths) ∧ is_temp_page p = false).
Proof.
  destruct (cleanup_run E imagePaths w)
    as (w' & Hrun & _ & _ & _ & Hsub & Honly & _).
  exists w'. split; [done|]. split; [done|]. split.
  - intros p Hp Hlisted Hpage. destruct (decide (p ∈ disk w')) as [|Hgone]; [done|].
    destruct (Honly p Hp Hgone); congruence.
  - intros Hok. unfold cleanupTempImages, bind, emit, modify, try_catch in Hrun.
    destruct (cleanup_body_exact E imagePaths (add_log (EvCleanup imagePaths) w) Hok)
      as (d & Hbody & Hd).
    rewrite Hbody in Hrun. simplify_eq. exact Hd.
Qed.

(** ** The stages of a request, in one statement *)

Lemma stages_anatomy E fuel files batchSize documentType w o w2 :
  extract_stages E fuel files batchSize documentType w = (o, w2) →
  ∃ o1 w1 batches k,
    for_each (expand_file E) files w = (o1, w1)
    ∧ same_files w1 w2
    ∧ extends (heap w1) (heap w2)
    ∧ log w2 = log w1 ++ (EvModelCall (getPromptForDocumentType documentType)
                            <$> take k batches)
    ∧ (k = 0%nat ∨ batch_loop fuel (allImagePaths w1) batchSize 0 [] = Some batches)
    ∧ match o with
      | Ret _ =>
          o1 = Ret tt
          ∧ batch_loop fuel (allImagePaths w1) batchSize 0 [] = Some batches
          ∧ k = length batches
      | Throw e =>
          o1 = Throw e
          ∨ o1 = Ret tt
            ∧ (e = ErrNoImages ∧ allImagePaths w1 = []
               ∨ batch_loop fuel (allImagePaths w1) batchSize 0 [] = Some batches
                 ∧ ((∃ j b, batches !! j = Some b ∧ batch_error E (disk w1) [b] e
                            ∧ (k = j ∨ k = S j))
                    ∨ k = length batches ∧ (e = ErrType ∨ e = ErrCircular)))
      | Halt _ => True
      end.
Proof.
  rewrite stages_run. cbv zeta.
  destruct (for_each (expand_file E) files w) as [o1 w1] eqn:Hexp. cbn [fst snd].
  assert (Hnil : log w1 = log w1 ++ (EvModelCall (getPromptForDocumentType documentType)
                                       <$> take 0 ([] : list (list fpath))))
    by (by rewrite app_nil_r).
  destruct o1 as [[]|e1|r1].
  2,3: intros ?; simplify_eq; eexists; exists w2, [], 0%nat;
       repeat (split; [done || apply extends_refl|]); auto.
  destruct (Z.eqb_spec (Z.of_nat (length (allImagePaths w1))) 0) as [Hzero|Hpos].
  { intros ?; simplify_eq. eexists; exists w2, [], 0%nat.
    repeat (split; [done || apply extends_refl|]). split; [by left|].
    right. split; [done|]. left. split; [done|]. by destruct (allImagePaths w2). }
  destruct (batch_loop fuel (allImagePaths w1) batchSize 0 []) as [batches|] eqn:Hloop.
  2: { intros ?; simplify_eq. eexists; exists w2, [], 0%nat.
       repeat (split; [done || apply extends_refl|]). split; [by left|done]. }
  destruct (map_m _ batches w1) as [o3 w3] eqn:Hbatches. cbn [fst snd].
  destruct (process_batches_run _ _ _ _ _ _ Hbatches) as (Hsame & Hext & k & Hlog & Hk).
  destruct o3 as [results|e3|r3]; [| |done].
  - intros Hmerge. destruct (merge_footprint results w3) as (h' & Hw & Hext').
    rewrite Hmerge in Hw. cbn in Hw. subst w2. destruct Hk as [-> Hlen].
    exists (Ret tt), w1, batches, (length batches).
    split; [done|]. split; [done|]. split; [by eapply extends_trans|].
    split; [done|]. split; [by right|].
    pose proof (merge_throws results w3) as Hthrows. rewrite Hmerge in Hthrows.
    destruct o as [v|e|r]; [done| |done].
    right. split; [done|]. right. split; [done|]. right. split; [done|].
    by apply Hthrows.
  - intros ?; simplify_eq. exists (Ret tt), w1, batches, k.
    split; [done|]. split; [done|]. split; [done|]. split; [done|]. split; [by right|].
    right. split; [done|]. right. split; [done|]. by left.
Qed.

(** A request, from the state [w1] after the expansion and the state
    [w2] after the merge to the final state. *)
Lemma request_anatomy E fuel files batchSize documentType w o wf :
  extractDataWithOpenAI E fuel files batchSize documentType w = (o, wf) →
  ∃ o1 w1 w2 batches k evs,
    for_each (expand_file E) files (reset w) = (o1, w1)
    ∧ extract_stages E fuel files batchSize documentType (reset w) = (o, w2)
    ∧ same_files w1 w2
    ∧ log w2 = log w1 ++ (EvModelCall (getPromptForDocumentType documentType)
                            <$> take k batches)
    ∧ (k = 0%nat ∨ batch_loop fuel (allImagePaths w1) batchSize 0 [] = Some batches)
    ∧ heap wf = heap w2
    ∧ allImagePaths wf = allImagePaths w1
    ∧ allTempImagePaths wf = allTempImagePaths w1
    ∧ disk wf ⊆ disk w1
    ∧ (∀ p, p ∈ disk w1 → p ∉ disk wf →
            p ∈ allTempImagePaths w1 ∨ is_temp_page p = true)
    ∧ (allTempImagePaths w1 = [] →
       disk wf = disk w1 ∧ ∀ ev, ev ∈ evs → ∃ err, ev = EvError err)
    ∧ log wf = log w2 ++ evs
    ∧ (∀ ev, ev ∈ evs →
             ev = EvCleanup (allTempImagePaths w1) ∧ allTempImagePaths w1 ≠ []
             ∨ (∃ err, ev = EvWarn err) ∨ (∃ err, ev = EvError err)).
Proof.
  rewrite request_run. cbv zeta.
  destruct (extract_stages E fuel files batchSize documentType (reset w))
    as [o' w2] eqn:Hstages. cbn [fst snd].
  destruct (stages_anatomy _ _ _ _ _ _ _ _ Hstages)
    as (o1 & w1 & batches & k & Hexp & Hsame & _ & Hlog & Hloop & _).
  destruct (cleanup_if_any_run E w2)
    as (w3 & Hclean & Hheap & Himgs & Htemps & Hdisk & Honly & Hnone & evs & Hlog3 & Hevs).
  rewrite Hclean. cbn [snd]. destruct Hsame as (Hd & Hi & Ht).
  assert (Hevs' : ∀ ev, ev ∈ evs →
            ev = EvCleanup (allTempImagePaths w1) ∧ allTempImagePaths w1 ≠ []
            ∨ (∃ err, ev = EvWarn err) ∨ (∃ err, ev = EvError err)).
  { intros ev Hev. rewrite <- Ht. destruct (allTempImagePaths w2) as [|t ts] eqn:Hts.
    - specialize (Hnone eq_refl). subst w3.
      apply (f_equal length) in Hlog3. rewrite length_app in Hlog3.
      destruct evs; [by apply elem_of_nil in Hev|simpl in Hlog3; lia].
    - destruct (Hevs ev Hev) as [->|?]; [|by right; left]. by left. }
  assert (Hnone' : allTempImagePaths w1 = [] → disk w3 = disk w1 ∧ evs = []).
  { intros Hts. rewrite <- Ht in Hts. specialize (Hnone Hts). subst w3.
    split; [done|]. apply (f_equal length) in Hlog3. rewrite length_app in Hlog3.
    destruct evs; [done|simpl in Hlog3; lia]. }
  assert (Honly' : ∀ p, p ∈ disk w1 → p ∉ disk w3 →
                        p ∈ allTempImagePaths w1 ∨ is_temp_page p = true).
  { intros p. rewrite <- Hd, <- Ht. apply Honly. }
  assert (Hdisk' : disk w3 ⊆ disk w1) by (by rewrite <- Hd).
  destruct o' as [v|e|r]; intros ?; simplify_eq.
  - exists o1, w1, w2, batches, k, evs.
    repeat (split; [done || congruence|]).
    split; [|done]. intros Hts. destruct (Hnone' Hts) as [? ->].
    split; [done|]. by intros ? ?%elem_of_nil.
  - exists o1, w1, w2, batches, k, (evs ++ [EvError e]). cbn.
    repeat (split; [done || congruence|]).
    split; [|split; [by rewrite Hlog3, <- app_assoc|]].
    + intros Hts. destruct (Hnone' Hts) as [? ->]. split; [done|].
      intros ev ->%list_elem_of_singleton. by exists e.
    + intros ev [Hev| ->%list_elem_of_singleton]%elem_of_app; [auto|].
      right. right. by exists e.
  - exists o1, w1, wf, batches, k, [].
    repeat (split; [done || congruence|]).
    split; [by intros _; split; [|intros ? ?%elem_of_nil]|].
    split; [by rewrite app_nil_r|]. by intros ? ?%elem_of_nil.
Qed.

(** ** The errors of a request *)

(** X7.  The errors a request can fail with: the conversion failure
    of one of its files (with the message of the rasterizer), 'No images
    to process', a missing or unreadable image, a syntax error in a
    model reply, an error of the provider, or a TypeError of the merge.
    It never fails with 'Invalid MIME type detected' (the check in the
    batch loop cannot fire), with the rasterizer's own error (it is
    always wrapped) or with a deletion error (the cleanup keeps it). *)
Theorem request_errors (E : env) (fuel : nat) (files : list fpath) (batchSize : Z)
    (documentType : string) (w : world) (e : error) :
  (extractDataWithOpenAI E fuel files batchSize documentType w).1 = Throw e →
  ((∃ p msg, p ∈ files ∧ failure (pdf_convert E p) = Some msg ∧ e = ErrConvertFailed msg)
   ∨ e = ErrNoImages
   ∨ (∃ p, e = ErrImageNotFound p ∨ e = ErrRead p ∧ file_bytes E p = None)
   ∨ e = ErrSyntax
   ∨ (∃ msg, e = ErrProvider msg)
   ∨ e = ErrType
   ∨ e = ErrCircular)
  ∧ (∀ m, e ≠ ErrInvalidMime m)
  ∧ (∀ msg, e ≠ ErrPoppler msg)
  ∧ (∀ p, e ≠ ErrUnlink p).
Proof.
  intros Hthrow.
  assert (Hclass :
    (∃ p msg, p ∈ files ∧ failure (pdf_convert E p) = Some msg ∧ e = ErrConvertFailed msg)
    ∨ e = ErrNoImages
    ∨ (∃ p, e = ErrImageNotFound p ∨ e = ErrRead p ∧ file_bytes E p = None)
    ∨ e = ErrSyntax
    ∨ (∃ msg, e = ErrProvider msg)
    ∨ e = ErrType
    ∨ e = ErrCircular).
  { destruct (extractDataWithOpenAI E fuel files batchSize documentType w)
      as [o wf] eqn:Hrun. cbn in Hthrow. subst o.
    destruct (request_anatomy _ _ _ _ _ _ _ _ Hrun)
      as (o1 & w1 & w2 & batches & k & evs & Hexp & Hstages & _).
    destruct (stages_anatomy _ _ _ _ _ _ _ _ Hstages)
      as (o1' & w1' & batches' & k' & Hexp' & _ & _ & _ & _ & Ho).
    rewrite Hexp in Hexp'. simplify_eq.
    destruct (expansion_run _ _ _ _ _ Hexp) as (_ & _ & _ & _ & _ & _ & Ho1).
    destruct Ho as [->|[-> Ho]].
    - destruct Ho1 as (p & msg & -> & Hp & Hmsg). left. by exists p, msg.
    - destruct Ho as [[-> _]|[_ [(j & b & _ & Hb & _)|[_ [->| ->]]]]]; [tauto| |tauto..].
      destruct Hb as [(b' & p & _ & _ & Hp)|[->|[msg ->]]].
      + right. right. left. exists p. tauto.
      + tauto.
      + right. right. right. right. left. by exists msg. }
  split; [exact Hclass|].
  repeat split; intros x ->; clear -Hclass; naive_solver.
Qed.

Lemma request_errors_witness :
  let E := Env (λ p, match p with Elsewhere _ => ".pdf" | InTemp _ => ".png" end)
               (λ p, match p with
                     | Elsewhere _ => Some [0x25; 0x50; 0x44; 0x46]
                     | InTemp _ => Some [0x89; 0x50; 0x4E; 0x47]
                     end)
               (λ _, ConvertResult ["page-1.png"] (Some "Syntax Error: broken xref"))
               (λ _ _, ReplyText None)
               (λ _, true) in
  let files := [Elsewhere "uploads/a.pdf"] in
  let w := World [] {[Elsewhere "uploads/a.pdf"]} [] [] [] in
  let e := ErrConvertFailed "Syntax Error: broken xref" in
  (extractDataWithOpenAI E 10 files 5 "MBL" w).1 = Throw e
  ∧ ((∃ p msg, p ∈ files ∧ failure (pdf_convert E p) = Some msg ∧ e = ErrConvertFailed msg)
     ∨ e = ErrNoImages
     ∨ (∃ p, e = ErrImageNotFound p ∨ e = ErrRead p ∧ file_bytes E p = None)
     ∨ e = ErrSyntax
     ∨ (∃ msg, e = ErrProvider msg)
     ∨ e = ErrType
     ∨ e = ErrCircular)
  ∧ (∀ m, e ≠ ErrInvalidMime m)
  ∧ (∀ msg, e ≠ ErrPoppler msg)
  ∧ (∀ p, e ≠ ErrUnlink p).
Proof.
  intros E files w e. split; [by vm_compute|].
  apply (request_errors E 10 files 5 "MBL" w e). by vm_compute.
Defined.

(** ** The files a request touches *)

(** X8.  Whatever happens in a request, outside the temp directory
    the file system is as before: no file is created or deleted there,
    so the uploaded files stay.  In the temp directory only page files
    are ever deleted, and every new file is in the temp directory. *)
Theorem request_disk_frame (E : env) (fuel : nat) (files : list fpath) (batchSize : Z)
    (documentType : string) (w : world) :
  let final := extractDataWithOpenAI E fuel files batchSize documentType w in
  (∀ q, Elsewhere q ∈ disk final.2 ↔ Elsewhere q ∈ disk w)
  ∧ (∀ p, p ∈ disk w → is_temp_page p = false → p ∈ disk final.2)
  ∧ (∀ p, p ∈ disk final.2 → p ∈ disk w ∨ ∃ f, p = InTemp f).
Proof.
  intros final. subst final.
  destruct (extractDataWithOpenAI E fuel files batchSize documentType w)
    as [o wf] eqn:Hrun. cbn [snd].
  destruct (request_anatomy _ _ _ _ _ _ _ _ Hrun)
    as (o1 & w1 & w2 & batches & k & evs & Hexp & _ & _ & _ & _ & _ & _ & _
        & Hsub & Honly & _).
  destruct (expansion_run _ _ _ _ _ Hexp)
    as (_ & Hgrow & Helse & (temps & Htemps & Htp) & _).
  cbn in Hgrow, Htemps.
  assert (Hkept : ∀ p, p ∈ disk w → is_temp_page p = false → p ∈ disk wf).
  { intros p Hp Hpage. destruct (decide (p ∈ disk wf)) as [|Hgone]; [done|].
    destruct (Honly p (Hgrow p Hp) Hgone) as [Hreg|?]; [|congruence].
    rewrite Htemps in Hreg. destruct (Htp p Hreg). congruence. }
  split; [|split; [done|]].
  - intros q. split; [intros Hq; apply Helse, Hsub, Hq|]. intros Hq. by apply Hkept.
  - intros p Hp. apply Hsub in Hp. destruct p as [f|q]; [right; by exists f|].
    left. by apply Helse.
Qed.

(** The stages never miss an image that the expansion listed. *)
Lemma stages_find_images E fuel files batchSize documentType w o w2 :
  extract_stages E fuel files batchSize documentType w = (o, w2) →
  (∀ p, p ∈ files → isPdfFile E p = false → p ∈ disk w) →
  (∀ p, p ∈ allImagePaths w → p ∈ disk w) →
  ∀ q, o ≠ Throw (ErrImageNotFound q).
Proof.
  intros Hstages Hfiles Hlisted q ->.
  destruct (stages_anatomy _ _ _ _ _ _ _ _ Hstages)
    as (o1 & w1 & batches & k & Hexp & _ & _ & _ & _ & Ho).
  destruct (expansion_run _ _ _ _ _ Hexp)
    as (_ & Hgrow & _ & _ & (pages & Hpages & Hpp) & _ & Ho1).
  destruct Ho as [->|[-> Ho]]; [by destruct Ho1 as (? & ? & ? & _)|].
  destruct Ho as [[? _]|[Hloop [(j & b & Hj & Hb & _)|[_ [?|?]]]]]; [done| |done..].
  destruct Hb as [(b' & p & ->%list_elem_of_singleton & Hp & He)|[?|[? ?]]]; [|done..].
  destruct He as [[[= <-] Hgone]|[? _]]; [|done]. apply Hgone.
  assert (Hin : q ∈ allImagePaths w1).
  { eapply (batch_loop_subseteq _ _ _ _ _ _ Hloop); [by intros ? ?%elem_of_nil| |exact Hp].
    by eapply list_elem_of_lookup_2. }
  rewrite Hpages in Hin. apply elem_of_app in Hin as [Hin|Hin]; [by apply Hgrow, Hlisted|].
  destruct (Hpp q Hin) as [[_ ?]|[Hq Himg]]; [done|].
  apply Hgrow. by apply Hfiles.
Qed.

(** X9.  If every file of the request that is not classified as a PDF
    exists when the request starts, the request never fails with 'Image
    file not found': page files are listed from the directory after the
    conversion, and nothing is deleted before the last batch. *)
Theorem existing_images_are_found (E : env) (fuel : nat) (files : list fpath)
    (batchSize : Z) (documentType : string) (w : world) :
  (∀ p, p ∈ files → isPdfFile E p = false → p ∈ disk w) →
  ∀ q, (extractDataWithOpenAI E fuel files batchSize documentType w).1
       ≠ Throw (ErrImageNotFound q).
Proof.
  intros Hfiles q Hthrow.
  destruct (extractDataWithOpenAI E fuel files batchSize documentType w)
    as [o wf] eqn:Hrun. cbn in Hthrow. subst o.
  destruct (request_anatomy _ _ _ _ _ _ _ _ Hrun)
    as (o1 & w1 & w2 & batches & k & evs & _ & Hstages & _).
  eapply (stages_find_images _ _ _ _ _ _ _ _ Hstages); [done| |done].
  by intros p ?%elem_of_nil.
Qed.

Lemma existing_images_are_found_witness :
  let E := Env (λ _, ".png") (λ _, Some [0x89; 0x50; 0x4E; 0x47])
               (λ _, ConvertResult [] None)
               (λ _ _, ReplyText (Some (JObj [("bl_number", JStr "MAEU1")])))
               (λ _, false) in
  let a := Elsewhere "uploads/a.png" in
  let w := World [] {[a]} [] [] [] in
  a ∈ disk w
  ∧ ∀ q, (extractDataWithOpenAI E 10 [a] 5 "MBL" w).1 ≠ Throw (ErrImageNotFound q).
Proof.
  intros E a w. split; [by vm_compute|].
  apply (existing_images_are_found E 10 [a] 5 "MBL" w).
  intros p Hp _. apply list_elem_of_singleton in Hp as ->. by vm_compute.
Defined.

(** ** The model calls of a request *)





(** X11.  A request whose files are all classified as images: the
    page list is the file list in the given order, no temp file is
    registered, the file system is unchanged, and the only new events
    are model calls and the final error, if any: there is no rasterizer
    call and no cleanup. *)
Theorem images_only_request (E : env) (fuel : nat) (files : list fpath)
    (batchSize : Z) (documentType : string) (w : world) :
  (∀ p, p ∈ files → isPdfFile E p = false) →
  let final := extractDataWithOpenAI E fuel files batchSize documentType w in
  allImagePaths final.2 = files
  ∧ allTempImagePaths final.2 = []
  ∧ disk final.2 = disk w
  ∧ ∀ ev, ev ∈ log final.2 →
          ev ∈ log w
          ∨ (∃ b, ev = EvModelCall (getPromptForDocumentType documentType) b)
          ∨ (∃ e, ev = EvError e).
Proof.
  intros Himages final. subst final.
  destruct (extractDataWithOpenAI E fuel files batchSize documentType w)
    as [o wf] eqn:Hrun. cbn [fst snd].
  destruct (request_anatomy _ _ _ _ _ _ _ _ Hrun)
    as (o1 & w1 & w2 & batches & k & evs & Hexp & _ & _ & Hlog2 & _ & _
        & Himgs & Htemps & _ & _ & Hnone & Hlogf & Hevs).
  rewrite expand_images_run in Hexp by done. simplify_eq. cbn in *.
  destruct (Hnone eq_refl) as [Hdisk Herr].
  split; [done|]. split; [done|]. split; [done|].
  intros ev. rewrite Hlogf, Hlog2, !elem_of_app. intros [[?|Hev]|Hev]; [by left| |].
  - right. left. apply list_elem_of_fmap in Hev as (b & -> & _). by exists b.
  - right. right. by apply Herr.
Qed.

Lemma images_only_request_witness :
  let E := Env (λ _, ".png") (λ _, Some [0x89; 0x50; 0x4E; 0x47])
               (λ _, ConvertResult [] None)
               (λ _ _, ReplyError "401 invalid api key")
               (λ _, false) in
  let files := [Elsewhere "uploads/a.png"; Elsewhere "uploads/b.png"] in
  let w := World [] (list_to_set files) [] [] [] in
  let final := extractDataWithOpenAI E 10 files 5 "HBL" w in
  allImagePaths final.2 = files
  ∧ allTempImagePaths final.2 = []
  ∧ disk final.2 = disk w
  ∧ ∀ ev, ev ∈ log final.2 →
          ev ∈ log w
          ∨ (∃ b, ev = EvModelCall (getPromptForDocumentType "HBL") b)
          ∨ (∃ e, ev = EvError e).
Proof.
  intros E files w. apply (images_only_request E 10 files 5 "HBL" w).
  intros p _. reflexivity.
Defined.

(** ** A request of one batch *)






(** ** A null among the batch results *)

Lemma or_empty_flat_returns v w : ∃ l, or_empty_flat v w = (Ret l, w).
Proof.
  unfold or_empty_flat, bind, get_world, ret. repeat case_match; eauto.
Qed.

Lemma get_prop_returns r k w :
  r ≠ VNull →
  match r with VRef l => is_Some (heap w !! l) | _ => True end →
  ∃ v, get_prop r k w = (Ret v, w).
Proof.
  intros Hnull Hr. unfold get_prop, bind, get_world, ret.
  destruct r as [| | | |l]; [done|eauto..|]. destruct Hr as [c ->]. cbn.
  destruct c; eauto.
Qed.

Lemma flatMap_null k rs w :
  VNull ∈ rs →
  (∀ r, r ∈ rs → match r with VRef l => is_Some (heap w !! l) | _ => True end) →
  flatMap_field k rs w = (Throw ErrType, w).
Proof.
  unfold flatMap_field. intros Hnull Hrs. unfold bind at 1.
  assert (Hmap : map_m (λ data, v <- get_prop data k ;; or_empty_flat v) rs w
                 = (Throw ErrType, w)); [|by rewrite Hmap].
  induction rs as [|r rs IH]; [by apply elem_of_nil in Hnull|].
  cbn [map_m]. unfold bind at 1. unfold bind at 1.
  assert (r = VNull ∨ r ≠ VNull) as [->|Hr] by (destruct r; [by left|by right..]);
    [done|].
  destruct (get_prop_returns r k w Hr (Hrs r ltac:(by left))) as (v & ->).
  destruct (or_empty_flat_returns v w) as (l & ->).
  unfold bind at 1. rewrite IH; [done| |].
  - apply elem_of_cons in Hnull as [?|?]; [congruence|done].
  - intros r' Hr'. apply Hrs. by right.
Qed.

(** X13.  When one of two or more batch results is null (the model
    replied null), the merge throws a TypeError at its first flatMap; a
    single null result is returned as it is. *)
Theorem merge_null_result (w : world) (r0 r1 : val) (rest : list val) :
  let rs := r0 :: r1 :: rest in
  VNull ∈ rs →
  (∀ r, r ∈ rs → match r with VRef l => is_Some (heap w !! l) | _ => True end) →
  is_Some (stringify (length (heap w)) (heap w) r0) →
  (mergeExtractedData rs w).1 = Throw ErrType
  ∧ mergeExtractedData [VNull] w = (Ret VNull, w).
Proof.
  intros rs Hnull Hrs [j Hj]. split; [|done]. subst rs. unfold mergeExtractedData.
  unfold bind at 1. unfold JSON_stringify, bind, get_world. cbn [fst snd].
  rewrite Hj. unfold ret at 1. unfold JSON_parse.
  destruct (parse_appends_all j (heap w)) as (ext & v & -> & _).
  rewrite flatMap_null; [done|done|].
  intros r Hr. specialize (Hrs r Hr). destruct r as [| | | |l]; try done.
  destruct Hrs as [c Hc]. exists c. cbn. by apply lookup_app_l_Some.
Qed.

Lemma merge_null_result_witness :
  let w := World [CObj [("bl_number", VStr "MAEU1")]] ∅ [] [] [] in
  (mergeExtractedData [VRef 0; VNull] w).1 = Throw ErrType
  ∧ mergeExtractedData [VNull] w = (Ret VNull, w).
Proof.
  intros w. apply (merge_null_result w (VRef 0) VNull []).
  - right. left.
  - intros r [->|[->|[]%elem_of_nil]%elem_of_cons]%elem_of_cons; [by eexists|done].
  - by eexists.
Defined.

(** ** Two PDFs in one request *)

(** X14.  Within one request nothing is deleted between two
    conversions, so the pages listed for a later PDF include every page
    listed for an earlier one: they are appended to the page list a
    second time. *)
Theorem later_pdf_relists_pages (E : env) (a b : fpath) (mid : list fpath)
    (w w1 w2 : world) :
  isPdfFile E a = true → isPdfFile E b = true →
  failure (pdf_convert E b) = None →
  expand_file E a w = (Ret tt, w1) →
  for_each (expand_file E) mid w1 = (Ret tt, w2) →
  ∃ pa pb w3,
    allImagePaths w1 = allImagePaths w ++ pa
    ∧ expand_file E b w2 = (Ret tt, w3)
    ∧ allImagePaths w3 = allImagePaths w2 ++ pb
    ∧ ∀ p, p ∈ pa → p ∈ pb.
Proof.
  intros Ha Hb Hokb Hruna Hmid.
  rewrite expand_pdf_run in Hruna by done.
  destruct (failure (pdf_convert E a)); [done|]. cbv zeta in Hruna.
  injection Hruna as <-.
  destruct (expansion_run _ _ _ _ _ Hmid) as (_ & Hgrow & _).
  cbn in Hgrow.
  rewrite expand_pdf_run, Hokb by done. cbv zeta.
  eexists _, _, _. split; [done|]. split; [done|]. split; [done|].
  intros p [Hpage Hp]%elem_of_page_listing. apply elem_of_page_listing.
  split; [done|]. unfold after_convert at 1. cbn [disk set_disk add_log].
  apply elem_of_union. left. by apply Hgrow.
Qed.

Lemma later_pdf_relists_pages_witness :
  let E := Env (λ _, ".pdf") (λ _, Some [0x25; 0x50; 0x44; 0x46])
               (λ p, match p with
                     | Elsewhere "uploads/a.pdf" =>
                         ConvertResult ["page-1.png"; "page-2.png"] None
                     | _ => ConvertResult ["page-1.png"] None
                     end)
               (λ _ _, ReplyText None) (λ _, false) in
  let a := Elsewhere "uploads/a.pdf" in
  let b := Elsewhere "uploads/b.pdf" in
  let w := World [] {[a; b]} [] [] [] in
  ∃ pa pb w3,
    allImagePaths (expand_file E a w).2 = allImagePaths w ++ pa
    ∧ expand_file E b (expand_file E a w).2 = (Ret tt, w3)
    ∧ allImagePaths w3 = allImagePaths (expand_file E a w).2 ++ pb
    ∧ ∀ p, p ∈ pa → p ∈ pb.
Proof.
  intros E a b w.
  apply (later_pdf_relists_pages E a b [] w (expand_file E a w).2 (expand_file E a w).2);
    by vm_compute.
Defined.

(** Two PDFs, of two pages and of one page: the second conversion
    lists page-2.png of the first PDF again, so four pages are sent. *)
Lemma two_pdfs_example :
  let E := Env (λ _, ".pdf") (λ _, Some [0x25; 0x50; 0x44; 0x46])
               (λ p, match p with
                     | Elsewhere "uploads/a.pdf" =>
                         ConvertResult ["page-1.png"; "page-2.png"] None
                     | _ => ConvertResult ["page-1.png"] None
                     end)
               (λ _ _, ReplyText None) (λ _, false) in
  let a := Elsewhere "uploads/a.pdf" in
  let b := Elsewhere "uploads/b.pdf" in
  allImagePaths (for_each (expand_file E) [a; b] (World [] {[a; b]} [] [] [])).2
  = [InTemp "page-1.png"; InTemp "page-2.png"; InTemp "page-1.png"; InTemp "page-2.png"].
Proof. by vm_compute. Qed.

(** ** The route /api/extract *)

Lemma api_extract_run E upload_path default_image fuel body w :
  let filePaths := route_filePaths upload_path default_image body in
  let missingFiles := filter (λ filePath, filePath ∉ disk w) filePaths in
  let extracted := extractDataWithOpenAI E fuel filePaths
                     (route_batchSize (body_batchSize body))
                     (or_default (body_documentType body) "MBL") w in
  api_extract E upload_path default_image fuel body w
  = match missingFiles with
    | _ :: _ => (Ret (Json404 missingFiles), w)
    | [] =>
        match extracted.1 with
        | Ret extractedData =>
            (Ret (Json200 extractedData (length filePaths)
                    (or_default (body_documentType body) "MBL")), extracted.2)
        | Throw error => (Ret (Json500 error), extracted.2)
        | Halt r => (Halt r, extracted.2)
        end
    end.
Proof.
  intros filePaths missingFiles extracted. subst extracted.
  unfold api_extract, try_catch. cbv zeta. unfold bind at 1. unfold get_world.
  fold filePaths. fold missingFiles. destruct missingFiles as [|m ms]; [|done].
  cbn [length]. change (0 <? Z.of_nat 0) with false. unfold bind, ret. cbv beta iota.
  by destruct (extractDataWithOpenAI _ _ _ _ _ w) as [[v|e|r] w'].
Qed.

(** X15.  POST /api/extract answers 404 exactly when a file of the
    request does not exist; the answer lists the missing files, in the
    order of the request, and nothing else has happened then: no
    rasterizer call, no model call, no change of state. *)
Theorem api_extract_missing_files (E : env) (upload_path : string → string)
    (default_image : string) (fuel : nat) (body : extract_request) (w : world) :
  let filePaths := route_filePaths upload_path default_image body in
  let missingFiles := filter (λ filePath, filePath ∉ disk w) filePaths in
  let final := api_extract E upload_path default_image fuel body w in
  (missingFiles ≠ [] → final = (Ret (Json404 missingFiles), w))
  ∧ (∀ missing, final.1 = Ret (Json404 missing) → missing = missingFiles ∧ missing ≠ [])
  ∧ (∀ p, p ∈ missingFiles ↔ p ∈ filePaths ∧ p ∉ disk w)
  ∧ missingFiles `sublist_of` filePaths.
Proof.
  intros filePaths missingFiles final. subst final. rewrite api_extract_run.
  fold filePaths. fold missingFiles. split; [|split; [|split]].
  - by destruct missingFiles.
  - intros missing. destruct missingFiles as [|m ms]; [|by intros [= <-]].
    destruct (extractDataWithOpenAI _ _ _ _ _ w) as [[v|e|r] w']; by cbn.
  - intros p. subst missingFiles. rewrite list_elem_of_filter. tauto.
  - apply sublist_filter.
Qed.

(** X16.  When all files of the request exist, POST /api/extract
    answers with the outcome of extractDataWithOpenAI: 200 with the data
    and the number of files when it returns, 500 with the error when it
    throws; no error escapes the route.  The error is never 'Image file
    not found', the files of the request are still there afterwards, and
    an empty filePaths array is answered with 500 'No images to
    process': the default image is not used for it. *)
Theorem api_extract_existing_files (E : env) (upload_path : string → string)
    (default_image : string) (fuel : nat) (body : extract_request) (w : world) :
  let filePaths := route_filePaths upload_path default_image body in
  let batchSize := route_batchSize (body_batchSize body) in
  let documentType := or_default (body_documentType body) "MBL" in
  let extracted := extractDataWithOpenAI E fuel filePaths batchSize documentType w in
  let final := api_extract E upload_path default_image fuel body w in
  (∀ p, p ∈ filePaths → p ∈ disk w) →
  final.2 = extracted.2
  ∧ match extracted.1 with
    | Ret extractedData =>
        final.1 = Ret (Json200 extractedData (length filePaths) documentType)
    | Throw error =>
        final.1 = Ret (Json500 error) ∧ ∀ q, error ≠ ErrImageNotFound q
    | Halt r => final.1 = Halt r
    end
  ∧ (∀ e, final.1 ≠ Throw e)
  ∧ (∀ p, p ∈ filePaths → p ∈ disk final.2)
  ∧ (filePaths = [] → final.1 = Ret (Json500 ErrNoImages)).
Proof.
  intros filePaths batchSize documentType extracted final Hexist. subst final.
  rewrite api_extract_run. fold filePaths batchSize documentType extracted.
  assert (Hnone : filter (λ filePath, filePath ∉ disk w) filePaths = []).
  { destruct (filter _ filePaths) as [|m ms] eqn:Hf; [done|].
    assert (Hm : m ∈ filter (λ filePath, filePath ∉ disk w) filePaths)
      by (rewrite Hf; left).
    apply list_elem_of_filter in Hm as [Hm Hin]. destruct Hm. by apply Hexist. }
  rewrite Hnone.
  destruct extracted as [o wf] eqn:Hrun. subst extracted.
  destruct (request_anatomy _ _ _ _ _ _ _ _ Hrun)
    as (o1 & w1 & w2 & batches & k & evs & Hexp & Hstages & _ & _ & _ & _ & _ & _
        & _ & Honly & _).
  assert (Hfound : ∀ q, o ≠ Throw (ErrImageNotFound q)).
  { intros q. eapply (stages_find_images _ _ _ _ _ _ _ _ Hstages); [by auto|].
    by intros p ?%elem_of_nil. }
  assert (Hkept : ∀ p, p ∈ filePaths → p ∈ disk wf).
  { intros p Hp.
    destruct (expansion_run _ _ _ _ _ Hexp) as (_ & Hgrow & _ & (temps & Htemps & Htp) & _).
    cbn in Hgrow, Htemps.
    assert (∃ q, p = Elsewhere q) as [q ->].
    { subst filePaths. unfold route_filePaths in Hp. repeat case_match;
        try apply list_elem_of_fmap in Hp as (? & -> & _);
        try apply list_elem_of_singleton in Hp as ->; eauto. }
    destruct (decide (Elsewhere q ∈ disk wf)) as [|Hgone]; [done|].
    destruct (Honly _ (Hgrow _ (Hexist _ Hp)) Hgone) as [Hreg|?]; [|done].
    rewrite Htemps in Hreg. by destruct (Htp _ Hreg). }
  cbn [fst snd].
  split; [by destruct o|]. split.
  { destruct o as [v|e|r]; [done| |done]. split; [done|].
    intros q ->. by apply (Hfound q). }
  split; [by destruct o|]. split; [by destruct o|].
  intros Hempty. revert Hrun. subst filePaths. rewrite Hempty.
  intros Hrun. vm_compute in Hrun. by simplify_eq.
Qed.

Lemma api_extract_existing_files_witness :
  let E := Env (λ _, ".png") (λ _, Some [0x89; 0x50; 0x4E; 0x47])
               (λ _, ConvertResult [] None)
               (λ _ _, ReplyText (Some (JObj [("bl_number", JStr "MAEU1")])))
               (λ _, false) in
  let upload_path := String.append "/srv/uploads/" in
  let body := ExtractRequest (Some ["a.png"]) None None (Some "hbl") in
  let w := World [] {[Elsewhere "/srv/uploads/a.png"]} [] [] [] in
  let filePaths := route_filePaths upload_path "/srv/sample-docs/invoice.png" body in
  let batchSize := route_batchSize (body_batchSize body) in
  let documentType := or_default (body_documentType body) "MBL" in
  let extracted := extractDataWithOpenAI E 10 filePaths batchSize documentType w in
  let final := api_extract E upload_path "/srv/sample-docs/invoice.png" 10 body w in
  final.2 = extracted.2
  ∧ match extracted.1 with
    | Ret extractedData =>
        final.1 = Ret (Json200 extractedData (length filePaths) documentType)
    | Throw error =>
        final.1 = Ret (Json500 error) ∧ ∀ q, error ≠ ErrImageNotFound q
    | Halt r => final.1 = Halt r
    end
  ∧ (∀ e, final.1 ≠ Throw e)
  ∧ (∀ p, p ∈ filePaths → p ∈ disk final.2)
  ∧ (filePaths = [] → final.1 = Ret (Json500 ErrNoImages)).
Proof.
  intros E upload_path body w.
  apply (api_extract_existing_files E upload_path "/srv/sample-docs/invoice.png" 10 body w).
  intros p Hp. apply list_elem_of_singleton in Hp as ->. by vm_compute.
Defined.

(** The request above is answered with status 200, the document the
    model returned, one file processed, and the document type as sent. *)
Lemma api_extract_example :
  let E := Env (λ _, ".png") (λ _, Some [0x89; 0x50; 0x4E; 0x47])
               (λ _, ConvertResult [] None)
               (λ _ _, ReplyText (Some (JObj [("bl_number", JStr "MAEU1")])))
               (λ _, false) in
  let body := ExtractRequest (Some ["a.png"]) None None (Some "hbl") in
  let w := World [] {[Elsewhere "/srv/uploads/a.png"]} [] [] [] in
  let final := api_extract E (String.append "/srv/uploads/")
                 "/srv/sample-docs/invoice.png" 10 body w in
  final.1 = Ret (Json200 (VRef 0) 1 "hbl")
  ∧ log final.2 = [EvModelCall HBLPROMPT [Elsewhere "/srv/uploads/a.png"]].
Proof. split; by vm_compute. Qed.

(** ** Page files after a request *)

Lemma cleanup_if_any_sweeps E w :
  (∀ p, unlink_fails E p = false) → allTempImagePaths w ≠ [] →
  ∀ p, p ∈ disk (cleanup_if_any E w).2 → is_temp_page p = false.
Proof.
  intros Hok Hne p. unfold cleanup_if_any, bind, get_world. cbn [fst snd].
  destruct (allTempImagePaths w) as [|t ts] eqn:Hts; [done|]. cbn [length].
  destruct (Z.ltb_spec 0 (Z.of_nat (S (length ts)))); [|lia].
  unfold cleanupTempImages, bind, emit, modify, try_catch.
  destruct (cleanup_body_exact E (t :: ts) (add_log (EvCleanup (t :: ts)) w) Hok)
    as (d & -> & Hd).
  cbn. intros Hp. by apply Hd in Hp as (_ & _ & ?).
Qed.

(** X17.  When no deletion fails, a request that registered at least
    one temp page and ended by returning or throwing leaves no page file
    in the temp directory, not even one that was there before the
    request. *)
Theorem request_leaves_no_pages (E : env) (fuel : nat) (files : list fpath)
    (batchSize : Z) (documentType : string) (w : world) :
  let final := extractDataWithOpenAI E fuel files batchSize documentType w in
  (∀ p, unlink_fails E p = false) →
  (∀ r, final.1 ≠ Halt r) →
  allTempImagePaths final.2 ≠ [] →
  ∀ p, p ∈ disk final.2 → is_temp_page p = false.
Proof.
  intros final Hok Hexit Hne p. subst final. revert Hexit Hne.
  rewrite request_run. cbv zeta.
  destruct (cleanup_if_any_returns E
              (extract_stages E fuel files batchSize documentType (reset w)).2)
    as (w3 & Hrun & _ & Htemps & _).
  pose proof (cleanup_if_any_sweeps E
                (extract_stages E fuel files batchSize documentType (reset w)).2 Hok)
    as Hsweep.
  rewrite Hrun in Hsweep |- *. cbn [snd] in Hsweep |- *.
  destruct (extract_stages E fuel files batchSize documentType (reset w)).1
    as [v|e|r]; cbn; intros Hexit Hne.
  - apply Hsweep. by rewrite <- Htemps.
  - apply Hsweep. by rewrite <- Htemps.
  - by destruct (Hexit r).
Qed.

Lemma request_leaves_no_pages_witness :
  let E := Env (λ p, match p with Elsewhere _ => ".pdf" | InTemp _ => ".png" end)
               (λ p, match p with
                     | Elsewhere _ => Some [0x25; 0x50; 0x44; 0x46]
                     | InTemp _ => Some [0x89; 0x50; 0x4E; 0x47]
                     end)
               (λ _, ConvertResult ["page-1.png"] None)
               (λ _ _, ReplyError "rate limit")
               (λ _, false) in
  let a := Elsewhere "uploads/a.pdf" in
  let w := World [] {[a; InTemp "page-7.png"; InTemp "notes.txt"]} [] [] [] in
  let final := extractDataWithOpenAI E 10 [a] 5 "MBL" w in
  allTempImagePaths final.2 ≠ []
  ∧ ∀ p, p ∈ disk final.2 → is_temp_page p = false.
Proof.
  intros E a w final. split; [by vm_compute|].
  apply (request_leaves_no_pages E 10 [a] 5 "MBL" w).
  - reflexivity.
  - intros r Hr. vm_compute in Hr. discriminate.
  - by vm_compute.
Defined.

Lemma for_each_app {A} (body : A → M unit) (l1 l2 : list A) w :
  for_each body (l1 ++ l2) w = (for_each body l1 ;;; for_each body l2) w.
Proof.
  revert w. induction l1 as [|x l1 IH]; intros w; [done|].
  cbn [for_each app]. unfold bind.
  destruct (body x w) as [[[]|e|r] w1]; [|done..]. rewrite IH. done.
Qed.

(** X18.  When the conversion of a PDF fails before any page was
    registered (the files before it are images), the request fails with
    the conversion error and no cleanup runs: the files the rasterizer
    wrote before it failed stay in the temp directory. *)
Theorem failed_conversion_leaves_pages (E : env) (fuel : nat) (images : list fpath)
    (p : fpath) (rest : list fpath) (batchSize : Z) (documentType : string)
    (w : world) (msg : string) :
  (∀ q, q ∈ images → isPdfFile E q = false) →
  isPdfFile E p = true → failure (pdf_convert E p) = Some msg →
  let final := extractDataWithOpenAI E fuel (images ++ p :: rest) batchSize
                 documentType w in
  final.1 = Throw (ErrConvertFailed msg)
  ∧ disk final.2 = disk w ∪ list_to_set (InTemp <$> written (pdf_convert E p))
  ∧ log final.2 = log w ++ [EvRasterize p; EvError (ErrConvertFailed msg)]
  ∧ allTempImagePaths final.2 = [].
Proof.
  intros Himages Hpdf Hfail final. subst final.
  assert (Hexp : for_each (expand_file E) (images ++ p :: rest) (reset w)
                 = (Throw (ErrConvertFailed msg),
                    after_convert E p (set_allImagePaths images (reset w)))).
  { rewrite for_each_app. unfold bind at 1. rewrite expand_images_run by done.
    cbn [for_each]. unfold bind at 1. by rewrite expand_pdf_run, Hfail. }
  rewrite request_run, stages_run. cbv zeta. rewrite Hexp. cbn [fst snd].
  unfold cleanup_if_any, bind, get_world. cbn.
  change (0 <? Z.of_nat 0) with false. cbn. by rewrite <- app_assoc.
Qed.

Lemma failed_conversion_leaves_pages_witness :
  let E := Env (λ p, match p with Elsewhere "uploads/a.pdf" => ".pdf" | _ => ".png" end)
               (λ p, match p with
                     | Elsewhere "uploads/a.pdf" => Some [0x25; 0x50; 0x44; 0x46]
                     | _ => Some [0x89; 0x50; 0x4E; 0x47]
                     end)
               (λ _, ConvertResult ["page-1.png"] (Some "Syntax Error: broken xref"))
               (λ _ _, ReplyText None) (λ _, false) in
  let a := Elsewhere "uploads/a.pdf" in
  let b := Elsewhere "uploads/b.png" in
  let w := World [] {[a; b]} [] [] [] in
  let final := extractDataWithOpenAI E 10 ([b] ++ a :: []) 5 "MBL" w in
  final.1 = Throw (ErrConvertFailed "Syntax Error: broken xref")
  ∧ disk final.2 = disk w ∪ list_to_set (InTemp <$> written (pdf_convert E a))
  ∧ log final.2
    = log w ++ [EvRasterize a; EvError (ErrConvertFailed "Syntax Error: broken xref")]
  ∧ allTempImagePaths final.2 = [].
Proof.
  intros E a b w.
  apply (failed_conversion_leaves_pages E 10 [b] a [] 5 "MBL" w
           "Syntax Error: broken xref"); [|reflexivity..].
  intros q Hq. apply list_elem_of_singleton in Hq as ->. reflexivity.
Defined.

(** ** A file named .pdf that is no PDF *)

(** X19.  A file whose extension is .pdf, in any letter case, but whose
    content does not begin with %PDF is not converted: it is put on the
    page list as it is and sent to the model as an image, under the
    type of its signature, or as image/png when its first byte starts no
    image signature. *)
Theorem mislabelled_pdf_is_sent_as_image (E : env) (p : fpath) (buffer : list Z)
    (w : world) :
  toLowerCase (path_extname E p) = ".pdf" →
  file_bytes E p = Some buffer →
  byte_is buffer 0 0x25 && byte_is buffer 1 0x50
  && byte_is buffer 2 0x44 && byte_is buffer 3 0x46 = false →
  isPdfFile E p = false
  ∧ expand_file E p w = (Ret tt, set_allImagePaths (allImagePaths w ++ [p]) w)
  ∧ (p ∈ disk w →
     imageToBase64 E p w = (Ret (detect_mime E p buffer, buffer), w)
     ∧ (byte_is buffer 0 0x89 = false → byte_is buffer 0 0xFF = false →
        byte_is buffer 0 0x47 = false → byte_is buffer 0 0x52 = false →
        detect_mime E p buffer = "image/png")).
Proof.
  intros Hext Hbytes Hsig.
  assert (Hpdf : isPdfFile E p = false).
  { unfold isPdfFile. by rewrite Hext, Hbytes. }
  split; [done|]. split; [by apply expand_image_run|]. intros Hp. split.
  - rewrite imageToBase64_run, bool_decide_eq_true_2, Hbytes by done. done.
  - intros H1 H2 H3 H4. unfold detect_mime. by rewrite H1, H2, H3, H4, Hext.
Qed.

Lemma mislabelled_pdf_is_sent_as_image_witness :
  let E := Env (λ _, ".PDF") (λ _, Some [0x3C; 0x68; 0x74; 0x6D; 0x6C])
               (λ _, ConvertResult [] None) (λ _ _, ReplyText None) (λ _, false) in
  let p := Elsewhere "uploads/report.PDF" in
  let buffer := [0x3C; 0x68; 0x74; 0x6D; 0x6C] in
  let w := World [] {[p]} [] [] [] in
  isPdfFile E p = false
  ∧ expand_file E p w = (Ret tt, set_allImagePaths (allImagePaths w ++ [p]) w)
  ∧ (p ∈ disk w →
     imageToBase64 E p w = (Ret (detect_mime E p buffer, buffer), w)
     ∧ (byte_is buffer 0 0x89 = false → byte_is buffer 0 0xFF = false →
        byte_is buffer 0 0x47 = false → byte_is buffer 0 0x52 = false →
        detect_mime E p buffer = "image/png")).
Proof.
  intros E p buffer w.
  apply (mislabelled_pdf_is_sent_as_image E p buffer w); reflexivity.
Defined.
